(** * CalculTOR: the beam load analysis of [BeamLoadCalculator]

    A shallow embedding of the [calculate] callback of the beam calculator
    component (unit conversion, cross-section resolution, reactions, the
    101-point diagram loop and the aggregation of the result), followed by
    the properties of the structural-beam specification.

    Numbers.  A JavaScript [number] is modelled as an exact rational [Q]:
    [+ - * /] are the field operations, [Math.pow(h, 3)] is [h ^ 3],
    [Math.abs] is [Qabs], [Math.max] is [Qmax] and the comparisons are the
    decidable order of [Q].  Rounding error, NaN and the infinities are
    outside this model; a quotient whose divisor is zero (which JavaScript
    turns into an infinity or NaN) is never relied upon: every statement
    that looks at such a quotient assumes the divisor non-zero.

    Stored values.  The diagram loop stores values that depend
    discontinuously on their argument: [toFixed(2)] jumps at the half
    hundredths, and the cantilever branch [x < a] jumps at the load.  The
    theorems on diagram points are therefore stated with a margin: a stored
    moment, shear or x is located to less than 0.01 of the exact quantity
    rather than equated with its rounding, a sample is compared with the
    load position only where a neighbouring sample settles the comparison,
    and stored deflections, which are not rounded, are compared up to 1e-9
    of [maxDeflection]. *)

From Stdlib Require Import QArith Qabs Qminmax Qround ZArith List String Bool Lia Lqa.
Import ListNotations.
Local Open Scope Q_scope.

(** ** JavaScript number helpers *)

Module JS.

Definition number := Q.

(** [x < y] on numbers. *)
Definition ltb (x y : number) : bool := negb (Qle_bool y x).
(** [x <= y] on numbers. *)
Definition leb (x y : number) : bool := Qle_bool x y.

(** [Math.pow(x, 3)]. *)
Definition pow3 (x : number) : number := x ^ 3.

(** The integer [n] that [Number.prototype.toFixed(2)] picks for a
    non-negative [x]: the one with [n / 100 - x] closest to zero, the
    larger of the two when there is a tie. *)
Definition hundredths (x : number) : Z := Qfloor (x * 100 + (1 # 2)).

(** [Number(x.toFixed(2))].  [toFixed] works on the magnitude and puts the
    sign back; from 1e21 on it prints the number itself, which [Number]
    reads back unchanged. *)
Definition toFixed2 (x : number) : number :=
  if Qle_bool 1000000000000000000000 (Qabs x) then x
  else if ltb x 0 then - (inject_Z (hundredths (- x)) / 100)
  else inject_Z (hundredths x) / 100.

(** [Math.max(...l)]; the diagram it is applied to is never empty
    (JavaScript answers minus infinity on no arguments). *)
Definition mathMax (l : list number) : number :=
  match l with
  | [] => 0
  | h :: t => fold_left Qmax t h
  end.

End JS.

(** ** Data model (types.ts and the component's [Inputs]) *)

Inductive BeamType := simply_supported | cantilever.
Inductive LoadType := point_load | udl.
Inductive BeamCrossSection := rectangular | i_beam | custom.

Record Inputs := {
  beamLength : Q;
  load : Q;
  loadPosition : Q;
  beamType : BeamType;
  loadType : LoadType;
  crossSection : BeamCrossSection;
  standardSize : string;
  sectionWidth : Q;
  sectionHeight : Q;
  flangeThickness : Q;
  webThickness : Q;
  modulusOfElasticityPreset : string;
  modulusOfElasticity : Q;
  momentOfInertia_cm4 : Q;
  distanceToFiber_mm : Q
}.

Record Reactions := { r1 : Q; r2 : Q }.

Record DiagramPoint := { x : Q; moment : Q; shear : Q; deflection : Q }.

Record BeamResult := {
  maxMoment : Q;
  maxShear : Q;
  maxStress : Q;
  maxDeflection : Q;
  momentOfInertia : Q;
  reactions : Reactions;
  diagramData : list DiagramPoint
}.

Definition initialInputs : Inputs := {|
  beamLength := 10;
  load := 100;
  loadPosition := 5;
  beamType := simply_supported;
  loadType := point_load;
  crossSection := rectangular;
  standardSize := "Custom";
  sectionWidth := 150;
  sectionHeight := 300;
  flangeThickness := 15;
  webThickness := 10;
  modulusOfElasticityPreset := "Steel";
  modulusOfElasticity := 200;
  momentOfInertia_cm4 := 8000;
  distanceToFiber_mm := 150
|}.

(** ** The body of [calculate], in the order of the source *)

Section Calculate.

Variable inputs : Inputs.

(** First guard: [L <= 0 || P <= 0 || modulusOfElasticity <= 0]. *)
Definition basicGuard : bool :=
  JS.leb (beamLength inputs) 0 || JS.leb (load inputs) 0 || JS.leb (modulusOfElasticity inputs) 0.

(** Unit conversions at the input boundary. *)
Definition E : Q := modulusOfElasticity inputs * 1000000000. (* 1e9 *)
Definition L_m : Q := beamLength inputs.
Definition P_N : Q := load inputs * 1000.
Definition w_Nm : Q := load inputs * 1000.
Definition a_m : Q := loadPosition inputs.

(** Cross-section: [Some (momentOfInertia, c_m)], or [None] where the
    source calls [setResult(null)] and returns. *)
Definition resolveSection : option (Q * Q) :=
  match crossSection inputs with
  | custom =>
      if JS.leb (momentOfInertia_cm4 inputs) 0 || JS.leb (distanceToFiber_mm inputs) 0
      then None
      else Some (momentOfInertia_cm4 inputs / 100000000 (* 1e8 *), distanceToFiber_mm inputs / 1000)
  | cs =>
      if JS.leb (sectionWidth inputs) 0 || JS.leb (sectionHeight inputs) 0
      then None
      else
        let h_m := sectionHeight inputs / 1000 in
        let b_m := sectionWidth inputs / 1000 in
        let c_m := h_m / 2 in
        match cs with
        | rectangular => Some ((b_m * JS.pow3 h_m) / 12, c_m)
        | _ =>
            let ft_m := flangeThickness inputs / 1000 in
            let wt_m := webThickness inputs / 1000 in
            let I_flanges := (b_m * JS.pow3 h_m) / 12 in
            let I_void := ((b_m - wt_m) * JS.pow3 (h_m - 2 * ft_m)) / 12 in
            Some (I_flanges - I_void, c_m)
        end
  end.

Definition b_len : Q := L_m - a_m.

(** What the first [if (beamType ...)] block leaves in [maxMoment_Nm],
    [maxShear_N] and [reactions_N]. *)
Record LoadCase := {
  maxMoment_Nm : Q;
  maxShear_N : Q;
  reactions_N : Reactions
}.

(** The point-load branches start with [if (a_m > L_m || a_m < 0) return;]. *)
Definition positionGuard : bool := JS.ltb L_m a_m || JS.ltb a_m 0.

(** [None] is the bare [return] of the position guard. *)
Definition solveLoadCase : option LoadCase :=
  match beamType inputs, loadType inputs with
  | simply_supported, point_load =>
      if positionGuard then None
      else
        let r1 := (P_N * b_len) / L_m in
        let r2 := (P_N * a_m) / L_m in
        Some {| maxMoment_Nm := (P_N * a_m * b_len) / L_m;
                maxShear_N := Qmax (Qabs r1) (Qabs r2);
                reactions_N := {| r1 := r1; r2 := r2 |} |}
  | simply_supported, udl =>
      let r1 := (w_Nm * L_m) / 2 in
      let r2 := (w_Nm * L_m) / 2 in
      Some {| maxMoment_Nm := (w_Nm * L_m * L_m) / 8;
              maxShear_N := r1;
              reactions_N := {| r1 := r1; r2 := r2 |} |}
  | cantilever, point_load =>
      if positionGuard then None
      else
        let r1 := P_N in
        let r2 := - P_N * a_m in
        Some {| maxMoment_Nm := r2;
                maxShear_N := P_N;
                reactions_N := {| r1 := r1; r2 := r2 |} |}
  | cantilever, udl =>
      let r1 := w_Nm * L_m in
      let r2 := - (w_Nm * L_m * L_m) / 2 in
      Some {| maxMoment_Nm := r2;
              maxShear_N := r1;
              reactions_N := {| r1 := r1; r2 := r2 |} |}
  end.

(** The three locals of one turn of the [for] loop, at position [x], with
    the reactions of [lc] and the second moment of area [I_m4] (the source's [I]). *)
Record Sample := { moment_Nm : Q; shear_N : Q; deflection_m : Q }.

Definition evalAt (lc : LoadCase) (I_m4 x : Q) : Sample :=
  let R := reactions_N lc in
  match beamType inputs, loadType inputs with
  | simply_supported, point_load =>
      {| moment_Nm := if JS.leb x a_m then r1 R * x else r1 R * x - P_N * (x - a_m);
         shear_N := if JS.ltb x a_m then r1 R else r1 R - P_N;
         deflection_m :=
           if JS.leb x a_m
           then (P_N * b_len * x) / (6 * E * I_m4 * L_m) * (L_m * L_m - b_len * b_len - x * x)
           else (P_N * a_m * (L_m - x)) / (6 * E * I_m4 * L_m)
                * (L_m * L_m - a_m * a_m - (L_m - x) * (L_m - x)) |}
  | simply_supported, udl =>
      {| moment_Nm := r1 R * x - (w_Nm * x * x) / 2;
         shear_N := r1 R - w_Nm * x;
         deflection_m :=
           (w_Nm * x) / (24 * E * I_m4) * (L_m * L_m * L_m - 2 * L_m * x * x + x * x * x) |}
  | cantilever, point_load =>
      {| moment_Nm := if JS.ltb x a_m then r2 R + r1 R * x else 0;
         shear_N := if JS.ltb x a_m then r1 R else 0;
         deflection_m :=
           if JS.leb x a_m
           then (P_N * x * x) / (6 * E * I_m4) * (3 * a_m - x)
           else (P_N * a_m * a_m) / (6 * E * I_m4) * (3 * x - a_m) |}
  | cantilever, udl =>
      {| moment_Nm := r2 R + r1 R * x - (w_Nm * x * x) / 2;
         shear_N := r1 R - w_Nm * x;
         deflection_m :=
           (w_Nm * x * x) / (24 * E * I_m4) * (x * x + 6 * L_m * L_m - 4 * L_m * x) |}
  end.

(** Position of the [i]-th turn: [(L_m / 100) * i]. *)
Definition position (i : nat) : Q := (L_m / 100) * inject_Z (Z.of_nat i).

(** The object pushed on [diagramData] in turn [i]. *)
Definition diagramPoint (lc : LoadCase) (I_m4 : Q) (i : nat) : DiagramPoint :=
  let x := position i in
  let s := evalAt lc I_m4 x in
  {| x := JS.toFixed2 x;
     moment := JS.toFixed2 (moment_Nm s / 1000);
     shear := JS.toFixed2 (shear_N s / 1000);
     deflection := deflection_m s * 1000 |}.

(** [for (let i = 0; i <= 100; i++) { ... diagramData.push(...) }]. *)
Definition sampleDiagram (lc : LoadCase) (I_m4 : Q) : list DiagramPoint :=
  map (diagramPoint lc I_m4) (seq 0 101).

(** The tail of [calculate]: peaks, stress and the conversion back to
    display units. *)
Definition aggregate (lc : LoadCase) (I_m4 c_m : Q) : BeamResult :=
  let diagramData := sampleDiagram lc I_m4 in
  {| maxMoment := maxMoment_Nm lc / 1000;
     maxShear := maxShear_N lc / 1000;
     maxStress := (Qabs (maxMoment_Nm lc) * c_m) / I_m4 / 1000000; (* 1e6 *)
     maxDeflection := JS.mathMax (map (fun d => Qabs (deflection d)) diagramData);
     momentOfInertia := I_m4;
     reactions := {| r1 := r1 (reactions_N lc) / 1000; r2 := r2 (reactions_N lc) / 1000 |};
     diagramData := diagramData |}.

(** The [summary] of the history entry handed to [addHistoryEntry]. *)
Definition summary : string :=
  ((match beamType inputs with simply_supported => "Simply Supported" | cantilever => "Cantilever" end)
   ++ " Beam, "
   ++ (match loadType inputs with point_load => "Point Load" | udl => "UDL" end))%string.

(** How one run of [calculate] ends. *)
Inductive Outcome :=
| Cleared                    (* [setResult(null); return;] *)
| Returned                   (* the bare [return;] of the position guard *)
| Computed (r : BeamResult). (* [setResult(newResult)] and [addHistoryEntry] *)

Definition runCalculate : Outcome :=
  if basicGuard then Cleared
  else
    match resolveSection with
    | None => Cleared
    | Some (I_m4, c_m) =>
        match solveLoadCase with
        | None => Returned
        | Some lc => Computed (aggregate lc I_m4 c_m)
        end
    end.

(** The component state [calculate] writes: the [result] hook and the
    summaries passed to the [addHistoryEntry] callback, newest first (the
    formatted [inputs] and [results] strings of an entry are left out). *)
Record State := { result : option BeamResult; emitted : list string }.

Definition calculate (st : State) : State :=
  match runCalculate with
  | Cleared => {| result := None; emitted := emitted st |}
  | Returned => st
  | Computed r => {| result := Some r; emitted := summary :: emitted st |}
  end.

End Calculate.

(** [calculate] went through every guard for these inputs. *)
Definition accepted (inputs : Inputs) : bool :=
  match runCalculate inputs with
  | Computed _ => true
  | _ => false
  end.

(** [{ ...inputs, loadPosition: a }]. *)
Definition withLoadPosition (a : Q) (inputs : Inputs) : Inputs :=
  {| beamLength := beamLength inputs;
     load := load inputs;
     loadPosition := a;
     beamType := beamType inputs;
     loadType := loadType inputs;
     crossSection := crossSection inputs;
     standardSize := standardSize inputs;
     sectionWidth := sectionWidth inputs;
     sectionHeight := sectionHeight inputs;
     flangeThickness := flangeThickness inputs;
     webThickness := webThickness inputs;
     modulusOfElasticityPreset := modulusOfElasticityPreset inputs;
     modulusOfElasticity := modulusOfElasticity inputs;
     momentOfInertia_cm4 := momentOfInertia_cm4 inputs;
     distanceToFiber_mm := distanceToFiber_mm inputs |}.

(** Default of [nth] on a diagram. *)
Definition noPoint : DiagramPoint := {| x := 0; moment := 0; shear := 0; deflection := 0 |}.

(** ** Concrete requests used below *)

(** An [Inputs] object with the two preset labels set to "Custom". *)
Definition mkInputs (L P a : Q) (bt : BeamType) (lt : LoadType) (cs : BeamCrossSection)
  (b h tf tw E_GPa I_cm4 c_mm : Q) : Inputs :=
  {| beamLength := L; load := P; loadPosition := a;
     beamType := bt; loadType := lt; crossSection := cs;
     standardSize := "Custom";
     sectionWidth := b; sectionHeight := h; flangeThickness := tf; webThickness := tw;
     modulusOfElasticityPreset := "Custom"; modulusOfElasticity := E_GPa;
     momentOfInertia_cm4 := I_cm4; distanceToFiber_mm := c_mm |}.

(** Scenario B: 10 m span, 100 kN/m, simply supported, 150 x 300 mm. *)
Definition scenarioB : Inputs :=
  mkInputs 10 100 5 simply_supported udl rectangular 150 300 15 10 200 8000 150.

(** Scenario C: 5 m cantilever, 50 kN at the tip. *)
Definition scenarioC : Inputs :=
  mkInputs 5 50 5 cantilever point_load rectangular 150 300 15 10 200 8000 150.

(** A 10 m cantilever with 100 kN at 4 m. *)
Definition interiorCantilever : Inputs :=
  mkInputs 10 100 4 cantilever point_load rectangular 150 300 15 10 200 8000 150.

(** A span of 0.1 m: the sampling step is 0.001 m. *)
Definition shortBeam : Inputs :=
  mkInputs (1 # 10) 100 (1 # 20) simply_supported point_load rectangular
           150 300 15 10 200 8000 150.

(** An I-beam 100 x 100 mm whose two 60 mm flanges are thicker than the
    section is high. *)
Definition thickFlangeBeam : Inputs :=
  mkInputs 10 100 5 simply_supported point_load i_beam 100 100 60 10 200 8000 150.



(** Second moment of area of a [b] x [h] rectangle about its centroidal axis. *)
Definition rectangleInertia (b h : Q) : Q := (b * h ^ 3) / 12.

(** An I-beam request whose flange width is zero. *)
Definition zeroWidthIBeam : Inputs :=
  mkInputs 10 100 5 simply_supported point_load i_beam 0 100 10 5 200 8000 150.

(** A 100 x 200 mm I-beam with 10 mm flanges and a 5 mm web. *)
Definition plainIBeam : Inputs :=
  mkInputs 10 100 5 simply_supported point_load i_beam 100 200 10 5 200 8000 150.

(** The initial request with the point load on the left, then on the right support. *)
Definition loadOnLeftSupport : Inputs := withLoadPosition 0 initialInputs.
Definition loadOnRightSupport : Inputs := withLoadPosition 10 initialInputs.

(** The state of a freshly mounted component. *)
Definition mounted : State := {| result := None; emitted := [] |}.

(** [{ ...inputs, load: p }]. *)
Definition withLoad (p : Q) (inputs : Inputs) : Inputs :=
  {| beamLength := beamLength inputs;
     load := p;
     loadPosition := loadPosition inputs;
     beamType := beamType inputs;
     loadType := loadType inputs;
     crossSection := crossSection inputs;
     standardSize := standardSize inputs;
     sectionWidth := sectionWidth inputs;
     sectionHeight := sectionHeight inputs;
     flangeThickness := flangeThickness inputs;
     webThickness := webThickness inputs;
     modulusOfElasticityPreset := modulusOfElasticityPreset inputs;
     modulusOfElasticity := modulusOfElasticity inputs;
     momentOfInertia_cm4 := momentOfInertia_cm4 inputs;
     distanceToFiber_mm := distanceToFiber_mm inputs |}.

(** ** Input history of a calculator component

    [BeamLoadCalculator] and [EarthworkCalculator] keep their inputs in the
    same way: a list [inputHistory] of snapshots and the index
    [currentIndex] of the one in use, written by [setInputs], [undo], [redo]
    and [handleReset]. *)

Module UndoRedo.

Record t (A : Type) := { inputHistory : list A; currentIndex : nat }.

Arguments inputHistory {A} _.
Arguments currentIndex {A} _.

Section Ops.

Variable A : Type.

(** [JSON.stringify(p) === JSON.stringify(q)] on two snapshots. *)
Variable sameJSON : A -> A -> bool.

Variable initialInputs : A.

(** [useState([initialInputs])] and [useState(0)]. *)
Definition mounted : t A := {| inputHistory := [initialInputs]; currentIndex := 0 |}.

(** [const inputs = inputHistory[currentIndex]]. *)
Definition inputs (s : t A) : option A := nth_error (inputHistory s) (currentIndex s).

(** [setInputs]: the argument is a snapshot or a function of the current
    one.  An index outside the list never arises (the operations keep it
    inside); the model leaves the state alone there. *)
Definition setInputs (newInputs : A + (A -> A)) (s : t A) : t A :=
  match inputs s with
  | None => s
  | Some cur =>
      let nextInputs := match newInputs with inr f => f cur | inl v => v end in
      if sameJSON nextInputs cur then s
      else
        let newHistory := firstn (currentIndex s + 1) (inputHistory s) ++ [nextInputs] in
        {| inputHistory := newHistory; currentIndex := List.length newHistory - 1 |}
  end.

(** [if (currentIndex > 0) setCurrentIndex(currentIndex - 1)]. *)
Definition undo (s : t A) : t A :=
  if (0 <? currentIndex s)%nat
  then {| inputHistory := inputHistory s; currentIndex := currentIndex s - 1 |}
  else s.

(** [if (currentIndex < inputHistory.length - 1) setCurrentIndex(currentIndex + 1)];
    the comparison is on integers, so an empty list gives [currentIndex < -1]. *)
Definition redo (s : t A) : t A :=
  if (currentIndex s + 1 <? List.length (inputHistory s))%nat
  then {| inputHistory := inputHistory s; currentIndex := currentIndex s + 1 |}
  else s.

Definition canUndo (s : t A) : bool := (0 <? currentIndex s)%nat.

Definition canRedo (s : t A) : bool :=
  (currentIndex s + 1 <? List.length (inputHistory s))%nat.

(** [handleReset], without the chart brush of the beam component. *)
Definition handleReset (s : t A) : t A :=
  {| inputHistory := [initialInputs]; currentIndex := 0 |}.

End Ops.

End UndoRedo.

(** ** The beam component's snapshots *)

Definition BeamType_eqb (p q : BeamType) : bool :=
  match p, q with
  | simply_supported, simply_supported | cantilever, cantilever => true
  | _, _ => false
  end.

Definition LoadType_eqb (p q : LoadType) : bool :=
  match p, q with
  | point_load, point_load | udl, udl => true
  | _, _ => false
  end.

Definition BeamCrossSection_eqb (p q : BeamCrossSection) : bool :=
  match p, q with
  | rectangular, rectangular | i_beam, i_beam | custom, custom => true
  | _, _ => false
  end.

(** [JSON.stringify(p) === JSON.stringify(q)] on beam inputs: every snapshot
    is a spread of [initialInputs], so the keys come in the same order and
    the texts agree exactly when all fifteen values do. *)
Definition sameInputsJSON (p q : Inputs) : bool :=
  Qeq_bool (beamLength p) (beamLength q)
  && Qeq_bool (load p) (load q)
  && Qeq_bool (loadPosition p) (loadPosition q)
  && BeamType_eqb (beamType p) (beamType q)
  && LoadType_eqb (loadType p) (loadType q)
  && BeamCrossSection_eqb (crossSection p) (crossSection q)
  && String.eqb (standardSize p) (standardSize q)
  && Qeq_bool (sectionWidth p) (sectionWidth q)
  && Qeq_bool (sectionHeight p) (sectionHeight q)
  && Qeq_bool (flangeThickness p) (flangeThickness q)
  && Qeq_bool (webThickness p) (webThickness q)
  && String.eqb (modulusOfElasticityPreset p) (modulusOfElasticityPreset q)
  && Qeq_bool (modulusOfElasticity p) (modulusOfElasticity q)
  && Qeq_bool (momentOfInertia_cm4 p) (momentOfInertia_cm4 q)
  && Qeq_bool (distanceToFiber_mm p) (distanceToFiber_mm q).

(** ** Standard sections *)

Module IBeamSize.
Record t := { name : string; height : Q; width : Q; webThickness : Q; flangeThickness : Q }.
End IBeamSize.

Module RectangularSize.
Record t := { name : string; width : Q; height : Q }.
End RectangularSize.

Definition I_BEAM_SIZES : list IBeamSize.t :=
  [ {| IBeamSize.name := "IPE 80"; IBeamSize.height := 80; IBeamSize.width := 46;
       IBeamSize.webThickness := 3.8; IBeamSize.flangeThickness := 5.2 |};
    {| IBeamSize.name := "IPE 100"; IBeamSize.height := 100; IBeamSize.width := 55;
       IBeamSize.webThickness := 4.1; IBeamSize.flangeThickness := 5.7 |};
    {| IBeamSize.name := "IPE 120"; IBeamSize.height := 120; IBeamSize.width := 64;
       IBeamSize.webThickness := 4.4; IBeamSize.flangeThickness := 6.3 |};
    {| IBeamSize.name := "IPE 140"; IBeamSize.height := 140; IBeamSize.width := 73;
       IBeamSize.webThickness := 4.7; IBeamSize.flangeThickness := 6.9 |};
    {| IBeamSize.name := "IPE 160"; IBeamSize.height := 160; IBeamSize.width := 82;
       IBeamSize.webThickness := 5.0; IBeamSize.flangeThickness := 7.4 |} ].

Definition RECTANGULAR_BEAM_SIZES : list RectangularSize.t :=
  [ {| RectangularSize.name := "150 x 300 mm"; RectangularSize.width := 150;
       RectangularSize.height := 300 |};
    {| RectangularSize.name := "200 x 400 mm"; RectangularSize.width := 200;
       RectangularSize.height := 400 |};
    {| RectangularSize.name := "250 x 500 mm"; RectangularSize.width := 250;
       RectangularSize.height := 500 |};
    {| RectangularSize.name := "300 x 600 mm"; RectangularSize.width := 300;
       RectangularSize.height := 600 |} ].

(** [{ ...p, standardSize: name }]. *)
Definition withStandardSize (name : string) (p : Inputs) : Inputs :=
  {| beamLength := beamLength p; load := load p; loadPosition := loadPosition p;
     beamType := beamType p; loadType := loadType p; crossSection := crossSection p;
     standardSize := name;
     sectionWidth := sectionWidth p; sectionHeight := sectionHeight p;
     flangeThickness := flangeThickness p; webThickness := webThickness p;
     modulusOfElasticityPreset := modulusOfElasticityPreset p;
     modulusOfElasticity := modulusOfElasticity p;
     momentOfInertia_cm4 := momentOfInertia_cm4 p;
     distanceToFiber_mm := distanceToFiber_mm p |}.

(** [{ ...p, standardSize, sectionHeight, sectionWidth, webThickness, flangeThickness }]. *)
Definition withIBeamSize (size : IBeamSize.t) (p : Inputs) : Inputs :=
  {| beamLength := beamLength p; load := load p; loadPosition := loadPosition p;
     beamType := beamType p; loadType := loadType p; crossSection := crossSection p;
     standardSize := IBeamSize.name size;
     sectionWidth := IBeamSize.width size; sectionHeight := IBeamSize.height size;
     flangeThickness := IBeamSize.flangeThickness size;
     webThickness := IBeamSize.webThickness size;
     modulusOfElasticityPreset := modulusOfElasticityPreset p;
     modulusOfElasticity := modulusOfElasticity p;
     momentOfInertia_cm4 := momentOfInertia_cm4 p;
     distanceToFiber_mm := distanceToFiber_mm p |}.

(** [{ ...p, standardSize, sectionHeight, sectionWidth }]. *)
Definition withRectangularSize (size : RectangularSize.t) (p : Inputs) : Inputs :=
  {| beamLength := beamLength p; load := load p; loadPosition := loadPosition p;
     beamType := beamType p; loadType := loadType p; crossSection := crossSection p;
     standardSize := RectangularSize.name size;
     sectionWidth := RectangularSize.width size; sectionHeight := RectangularSize.height size;
     flangeThickness := flangeThickness p; webThickness := webThickness p;
     modulusOfElasticityPreset := modulusOfElasticityPreset p;
     modulusOfElasticity := modulusOfElasticity p;
     momentOfInertia_cm4 := momentOfInertia_cm4 p;
     distanceToFiber_mm := distanceToFiber_mm p |}.

(** The beam component's [setInputs]. *)
Definition setBeamInputs := UndoRedo.setInputs Inputs sameInputsJSON.

(** [handleStandardSizeChange], on the name carried by the event. *)
Definition handleStandardSizeChange (name : string) (s : UndoRedo.t Inputs) : UndoRedo.t Inputs :=
  if String.eqb name "Custom"
  then setBeamInputs (inr (withStandardSize "Custom")) s
  else
    match UndoRedo.inputs Inputs s with
    | None => s
    | Some cur =>
        match crossSection cur with
        | i_beam =>
            match find (fun sz => String.eqb (IBeamSize.name sz) name) I_BEAM_SIZES with
            | Some size => setBeamInputs (inr (withIBeamSize size)) s
            | None => s
            end
        | _ =>
            match find (fun sz => String.eqb (RectangularSize.name sz) name)
                       RECTANGULAR_BEAM_SIZES with
            | Some size => setBeamInputs (inr (withRectangularSize size)) s
            | None => s
            end
        end
    end.

(** ** Peak selection buttons *)

(** [diagramData.reduce((max, p) => key(p) > key(max) ? p : max, diagramData[0])]. *)
Definition reduceMax (key : DiagramPoint -> Q) (diagramData : list DiagramPoint)
  : option DiagramPoint :=
  match diagramData with
  | [] => None
  | first :: _ =>
      Some (fold_left (fun max p => if JS.ltb (key max) (key p) then p else max)
                      diagramData first)
  end.

(** "Select Max Moment". *)
Definition selectMaxMoment (r : BeamResult) : option DiagramPoint :=
  reduceMax (fun p => Qabs (moment p)) (diagramData r).

(** "Select Max Deflection". *)
Definition selectMaxDeflection (r : BeamResult) : option DiagramPoint :=
  reduceMax (fun p => Qabs (deflection p)) (diagramData r).

(** ** Earthwork volumes ([EarthworkCalculator]) *)

Module Earthwork.

Record Inputs := {
  areaLength : Q;
  areaWidth : Q;
  avgCutDepth : Q;
  avgFillDepth : Q
}.

Record Result := { cutVolume : Q; fillVolume : Q; netVolume : Q }.

Definition initialInputs : Inputs :=
  {| areaLength := 50; areaWidth := 20; avgCutDepth := 0.5; avgFillDepth := 0.2 |}.

(** The body of the effect: [None] is [setResult(null)], [Some r] is
    [setResult(newResult)] followed by [addHistoryEntry]. *)
Definition volumes (inputs : Inputs) : option Result :=
  let area := areaLength inputs * areaWidth inputs in
  if JS.leb area 0 then None
  else
    let cutVolume := area * avgCutDepth inputs in
    let fillVolume := area * avgFillDepth inputs in
    Some {| cutVolume := cutVolume; fillVolume := fillVolume;
            netVolume := cutVolume - fillVolume |}.

(** The line under the net volume:
    [netVolume > 0 ? 'Surplus (requires removal)' : 'Deficit (requires import)']. *)
Definition netLabel (r : Result) : string :=
  if JS.ltb 0 (netVolume r) then "Surplus (requires removal)" else "Deficit (requires import)".

(** The colour class of the net volume: [netVolume >= 0 ? 'text-accent' : 'text-yellow-500']. *)
Definition netColour (r : Result) : string :=
  if JS.leb 0 (netVolume r) then "text-accent" else "text-yellow-500".

(** [JSON.stringify] equality of two snapshots. *)
Definition sameInputsJSON (p q : Inputs) : bool :=
  Qeq_bool (areaLength p) (areaLength q)
  && Qeq_bool (areaWidth p) (areaWidth q)
  && Qeq_bool (avgCutDepth p) (avgCutDepth q)
  && Qeq_bool (avgFillDepth p) (avgFillDepth q).

End Earthwork.

(** A site entered with both sides negative. *)
Definition negativeSite : Earthwork.Inputs :=
  {| Earthwork.areaLength := -5; Earthwork.areaWidth := -4;
     Earthwork.avgCutDepth := 1; Earthwork.avgFillDepth := 2 |}.

(** ** The application's calculation history ([App])

    [HistoryState] is a JavaScript object keyed by module; it is kept as an
    association list in key insertion order, which is what
    [JSON.stringify] prints.  A [Record<string, string | number>] is the
    list of its entries, each value by its JSON text. *)

Module App.

Inductive CalculatorModuleKey :=
| SCIENTIFIC | BEAM_LOAD | CONCRETE_MIX | REBAR | EARTHWORK | WATER_FLOW | SURVEYING.

Definition Fields := list (string * string).

Record HistoryEntry := {
  id : string;
  timestamp : string;
  inputs : Fields;
  results : Fields;
  summary : string
}.

(** [Omit<HistoryEntry, 'id' | 'timestamp'>]. *)
Record EntryData := { dataSummary : string; dataInputs : Fields; dataResults : Fields }.

Definition HistoryState := list (CalculatorModuleKey * list HistoryEntry).

Record Timeline := {
  past : list HistoryState;
  present : HistoryState;
  future : list HistoryState
}.

Definition key_eq_dec (a b : CalculatorModuleKey) : {a = b} + {a <> b}.
Proof. decide equality. Defined.

Definition Fields_eq_dec (a b : Fields) : {a = b} + {a <> b}.
Proof. repeat decide equality. Defined.

Definition HistoryEntry_eq_dec (a b : HistoryEntry) : {a = b} + {a <> b}.
Proof. decide equality; try apply string_dec; apply Fields_eq_dec. Defined.

Definition HistoryState_eq_dec (a b : HistoryState) : {a = b} + {a <> b}.
Proof.
  apply list_eq_dec. intros [k1 l1] [k2 l2].
  destruct (key_eq_dec k1 k2) as [Hk|Hk];
    [destruct (list_eq_dec HistoryEntry_eq_dec l1 l2) as [Hl|Hl]|];
    [left; congruence | right; congruence | right; congruence].
Defined.

(** [prevHistory[moduleKey]]. *)
Fixpoint lookup (h : HistoryState) (k : CalculatorModuleKey) : option (list HistoryEntry) :=
  match h with
  | [] => None
  | (k', v) :: rest => if key_eq_dec k' k then Some v else lookup rest k
  end.

(** [prevHistory[moduleKey] || []]. *)
Definition moduleHistory (h : HistoryState) (k : CalculatorModuleKey) : list HistoryEntry :=
  match lookup h k with
  | Some v => v
  | None => []
  end.

(** [{ ...prevHistory, [moduleKey]: v }]: an existing key keeps its place,
    a new key goes last. *)
Fixpoint setModule (h : HistoryState) (k : CalculatorModuleKey) (v : list HistoryEntry)
  : HistoryState :=
  match h with
  | [] => [(k, v)]
  | (k', v') :: rest =>
      if key_eq_dec k' k then (k', v) :: rest else (k', v') :: setModule rest k v
  end.

(** [l.slice(-20)]. *)
Definition lastTwenty {A : Type} (l : list A) : list A := skipn (List.length l - 20) l.

(** The state the component starts with, for a stored history [h]. *)
Definition start (h : HistoryState) : Timeline := {| past := []; present := h; future := [] |}.

Definition setHistoryWithUndo (updater : HistoryState -> HistoryState) (current : Timeline)
  : Timeline :=
  let newPresent := updater (present current) in
  if HistoryState_eq_dec newPresent (present current) then current
  else {| past := lastTwenty (past current ++ [present current]);
          present := newPresent;
          future := [] |}.

Definition undoHistoryAction (current : Timeline) : Timeline :=
  match past current with
  | [] => current
  | _ :: _ =>
      match nth_error (past current) (List.length (past current) - 1) with
      | Some previous =>
          {| past := firstn (List.length (past current) - 1) (past current);
             present := previous;
             future := present current :: future current |}
      | None => current
      end
  end.

Definition redoHistoryAction (current : Timeline) : Timeline :=
  match future current with
  | [] => current
  | next :: newFuture =>
      {| past := past current ++ [present current];
         present := next;
         future := newFuture |}
  end.

Definition canUndoHistory (t : Timeline) : bool := (0 <? List.length (past t))%nat.
Definition canRedoHistory (t : Timeline) : bool := (0 <? List.length (future t))%nat.

(** [addHistoryEntry]; [newId] and [now] stand for
    [new Date().toISOString() + Math.random()] and [new Date().toLocaleString()]. *)
Definition addHistoryEntry (moduleKey : CalculatorModuleKey) (newEntryData : EntryData)
  (newId now : string) : Timeline -> Timeline :=
  setHistoryWithUndo (fun prevHistory =>
    let entries := moduleHistory prevHistory moduleKey in
    let newEntry := {| id := newId; timestamp := now;
                       inputs := dataInputs newEntryData;
                       results := dataResults newEntryData;
                       summary := dataSummary newEntryData |} in
    let updated := setModule prevHistory moduleKey (firstn 20 (newEntry :: entries)) in
    match entries with
    | lastEntry :: _ =>
        if Fields_eq_dec (inputs lastEntry) (dataInputs newEntryData) then prevHistory
        else updated
    | [] => updated
    end).

Definition deleteHistoryEntry (moduleKey : CalculatorModuleKey) (entryId : string)
  : Timeline -> Timeline :=
  setHistoryWithUndo (fun prevHistory =>
    setModule prevHistory moduleKey
      (filter (fun entry => negb (String.eqb (id entry) entryId))
              (moduleHistory prevHistory moduleKey))).

Definition clearHistory (moduleKey : CalculatorModuleKey) : Timeline -> Timeline :=
  setHistoryWithUndo (fun prevHistory =>
    match lookup prevHistory moduleKey with
    | None | Some [] => prevHistory
    | Some (_ :: _) => setModule prevHistory moduleKey []
    end).

(** [handleToggleFavorite], on the list of favourite modules. *)
Definition handleToggleFavorite (moduleKey : CalculatorModuleKey)
  (prevFavorites : list CalculatorModuleKey) : list CalculatorModuleKey :=
  if existsb (fun fav => if key_eq_dec fav moduleKey then true else false) prevFavorites
  then filter (fun fav => if key_eq_dec fav moduleKey then false else true) prevFavorites
  else prevFavorites ++ [moduleKey].

(** A beam entry, as it could come out of [calculate]. *)
Definition sampleEntry : EntryData :=
  {| dataSummary := "Simply Supported Beam, Point Load";
     dataInputs := [("Length"%string, "10m"%string); ("Load"%string, "100kN"%string)];
     dataResults := [("Max Moment"%string, "250.00 kNm"%string)] |}.

Definition otherEntry : EntryData :=
  {| dataSummary := "Cantilever Beam, UDL";
     dataInputs := [("Length"%string, "5m"%string); ("Load"%string, "50kN/m"%string)];
     dataResults := [("Max Moment"%string, "625.00 kNm"%string)] |}.

End App.

(** ** Comparisons *)

Lemma leb_true (x y : Q) : JS.leb x y = true <-> x <= y.
Proof. unfold JS.leb. apply Qle_bool_iff. Qed.

Lemma leb_false (x y : Q) : JS.leb x y = false <-> y < x.
Proof.
  unfold JS.leb. split; intro H.
  - apply Qnot_le_lt. intro Hle. apply Qle_bool_iff in Hle. congruence.
  - destruct (Qle_bool x y) eqn:Hb; [|reflexivity].
    apply Qle_bool_iff in Hb. exfalso. apply (Qlt_not_le _ _ H Hb).
Qed.

Lemma ltb_true (x y : Q) : JS.ltb x y = true <-> x < y.
Proof.
  unfold JS.ltb. rewrite negb_true_iff. apply (leb_false y x).
Qed.

Lemma ltb_false (x y : Q) : JS.ltb x y = false <-> y <= x.
Proof.
  unfold JS.ltb. rewrite negb_false_iff. apply (leb_true y x).
Qed.

(** ** Rounding to two decimals *)

Lemma floor_shift (z : Z) (q : Q) : inject_Z z <= q -> (z <= Qfloor q)%Z.
Proof.
  intro H. rewrite <- (Qfloor_Z z). now apply Qfloor_resp_le.
Qed.

Lemma hundredths_mono (u v : Q) : u <= v -> (JS.hundredths u <= JS.hundredths v)%Z.
Proof.
  intro H. unfold JS.hundredths. apply Qfloor_resp_le. lra.
Qed.

Lemma hundredths_nonneg (u : Q) : 0 <= u -> (0 <= JS.hundredths u)%Z.
Proof.
  intro H. unfold JS.hundredths. apply floor_shift. change (inject_Z 0) with 0. lra.
Qed.

Lemma hundredths_step (u v : Q) :
  u + (1 # 100) <= v -> (JS.hundredths u + 1 <= JS.hundredths v)%Z.
Proof.
  intro H. unfold JS.hundredths. apply floor_shift.
  rewrite inject_Z_plus.
  pose proof (Qfloor_le (u * 100 + (1 # 2))) as Hf.
  change (inject_Z 1) with 1. lra.
Qed.

(** Below 1e21 the rounded value does not pass 1e21. *)
Lemma hundredths_below (u : Q) : u < 1000000000000000000000 ->
  inject_Z (JS.hundredths u) / 100 <= 1000000000000000000000.
Proof.
  intro H. unfold JS.hundredths.
  assert (Hz : (Qfloor (u * 100 + (1 # 2)) <= 100000000000000000000000)%Z).
  { apply Z.lt_succ_r. rewrite Zlt_Qlt.
    eapply Qle_lt_trans; [apply Qfloor_le|].
    unfold Z.succ. rewrite inject_Z_plus.
    change (inject_Z 100000000000000000000000) with 100000000000000000000000.
    change (inject_Z 1) with 1. lra. }
  rewrite Zle_Qle in Hz.
  change (inject_Z 100000000000000000000000) with 100000000000000000000000 in Hz.
  apply Qle_shift_div_r; [reflexivity|]. lra.
Qed.

Lemma div100 (q : Q) : q / 100 == q * (1 # 100).
Proof. reflexivity. Qed.

Lemma toFixed2_small_nonneg (u : Q) :
  0 <= u -> u < 1000000000000000000000 ->
  JS.toFixed2 u = inject_Z (JS.hundredths u) / 100.
Proof.
  intros H0 H1. unfold JS.toFixed2.
  rewrite (Qabs_pos u H0).
  assert (Hb : Qle_bool 1000000000000000000000 u = false) by (apply (leb_false _ u); exact H1).
  rewrite Hb.
  assert (Hn : JS.ltb u 0 = false) by (apply ltb_false; exact H0).
  now rewrite Hn.
Qed.

Lemma toFixed2_big (u : Q) :
  1000000000000000000000 <= u -> JS.toFixed2 u = u.
Proof.
  intro H. unfold JS.toFixed2.
  assert (H0 : 0 <= u) by lra.
  rewrite (Qabs_pos u H0).
  assert (Hb : Qle_bool 1000000000000000000000 u = true) by (apply Qle_bool_iff; exact H).
  now rewrite Hb.
Qed.

Lemma toFixed2_0 : JS.toFixed2 0 == 0.
Proof. reflexivity. Qed.

#[global] Instance toFixed2_Proper : Proper (Qeq ==> Qeq) JS.toFixed2.
Proof.
  intros u v Huv. unfold JS.toFixed2, JS.ltb, JS.hundredths.
  assert (E1 : Qle_bool 1000000000000000000000 (Qabs u)
               = Qle_bool 1000000000000000000000 (Qabs v)) by now rewrite Huv.
  assert (E2 : Qle_bool 0 u = Qle_bool 0 v) by now rewrite Huv.
  assert (E3 : Qfloor (u * 100 + (1 # 2)) = Qfloor (v * 100 + (1 # 2)))
    by (apply Qfloor_comp; now rewrite Huv).
  assert (E4 : Qfloor (- u * 100 + (1 # 2)) = Qfloor (- v * 100 + (1 # 2)))
    by (apply Qfloor_comp; now rewrite Huv).
  rewrite E1, E2, E3, E4.
  destruct (Qle_bool 1000000000000000000000 (Qabs v)); [exact Huv|].
  destruct (negb (Qle_bool 0 v)); reflexivity.
Qed.

(** On non-negative numbers [toFixed2] is monotone. *)
Lemma toFixed2_mono (u v : Q) : 0 <= u -> u <= v -> JS.toFixed2 u <= JS.toFixed2 v.
Proof.
  intros H0 Huv.
  destruct (Qlt_le_dec v 1000000000000000000000) as [Hv|Hv].
  - rewrite !toFixed2_small_nonneg by lra.
    rewrite !div100. apply Qmult_le_compat_r; [|discriminate].
    rewrite <- Zle_Qle. now apply hundredths_mono.
  - rewrite (toFixed2_big v Hv).
    destruct (Qlt_le_dec u 1000000000000000000000) as [Hu|Hu].
    + rewrite toFixed2_small_nonneg by lra.
      pose proof (hundredths_below u Hu). lra.
    + now rewrite (toFixed2_big u Hu).
Qed.

(** Two non-negative numbers at least 0.01 apart keep their order strictly. *)
Lemma toFixed2_strict (u v : Q) :
  0 <= u -> u + (1 # 100) <= v -> JS.toFixed2 u < JS.toFixed2 v.
Proof.
  intros H0 Huv.
  destruct (Qlt_le_dec v 1000000000000000000000) as [Hv|Hv].
  - rewrite !toFixed2_small_nonneg by lra.
    rewrite !div100. apply Qmult_lt_compat_r; [reflexivity|].
    rewrite <- Zlt_Qlt. pose proof (hundredths_step u v Huv). lia.
  - rewrite (toFixed2_big v Hv).
    destruct (Qlt_le_dec u 1000000000000000000000) as [Hu|Hu].
    + rewrite toFixed2_small_nonneg by lra.
      pose proof (Qfloor_le (u * 100 + (1 # 2))) as Hf.
      unfold JS.hundredths. rewrite div100. lra.
    + rewrite (toFixed2_big u Hu). lra.
Qed.

(** [toFixed2] moves a number by at most half a hundredth. *)
Lemma toFixed2_near (u : Q) : Qabs (JS.toFixed2 u - u) <= 1 # 200.
Proof.
  unfold JS.toFixed2.
  destruct (Qle_bool 1000000000000000000000 (Qabs u)).
  { setoid_replace (u - u) with 0 by ring. discriminate. }
  destruct (JS.ltb u 0); unfold JS.hundredths; rewrite div100.
  - pose proof (Qfloor_le (- u * 100 + (1 # 2))) as Hlo.
    pose proof (Qlt_floor (- u * 100 + (1 # 2))) as Hhi.
    rewrite inject_Z_plus in Hhi. change (inject_Z 1) with 1 in Hhi.
    generalize dependent (inject_Z (Qfloor (- u * 100 + (1 # 2)))). intros n Hlo Hhi.
    apply Qabs_Qle_condition. split; lra.
  - pose proof (Qfloor_le (u * 100 + (1 # 2))) as Hlo.
    pose proof (Qlt_floor (u * 100 + (1 # 2))) as Hhi.
    rewrite inject_Z_plus in Hhi. change (inject_Z 1) with 1 in Hhi.
    generalize dependent (inject_Z (Qfloor (u * 100 + (1 # 2)))). intros n Hlo Hhi.
    apply Qabs_Qle_condition. split; lra.
Qed.

(** A stored two-decimal value is less than 0.01 away from any number equal
    to the one that was rounded. *)
Lemma toFixed2_within (u v : Q) : u == v -> Qabs (JS.toFixed2 u - v) < 1 # 100.
Proof.
  intro Huv. rewrite <- Huv. pose proof (toFixed2_near u). lra.
Qed.

(** ** The shape of a run *)

Lemma accepted_inv (inputs : Inputs) :
  accepted inputs = true ->
  exists I_m4 c_m lc,
    basicGuard inputs = false /\
    resolveSection inputs = Some (I_m4, c_m) /\
    solveLoadCase inputs = Some lc /\
    runCalculate inputs = Computed (aggregate inputs lc I_m4 c_m).
Proof.
  unfold accepted, runCalculate.
  destruct (basicGuard inputs); [discriminate|].
  destruct (resolveSection inputs) as [[I_m4 c_m]|]; [|discriminate].
  destruct (solveLoadCase inputs) as [lc|]; [|discriminate].
  intros _. exists I_m4, c_m, lc. repeat split; reflexivity.
Qed.

Lemma basicGuard_false (inputs : Inputs) :
  basicGuard inputs = false <->
  0 < beamLength inputs /\ 0 < load inputs /\ 0 < modulusOfElasticity inputs.
Proof.
  unfold basicGuard. rewrite !orb_false_iff, !leb_false. tauto.
Qed.

Lemma basicGuard_true (inputs : Inputs) :
  basicGuard inputs = true <->
  beamLength inputs <= 0 \/ load inputs <= 0 \/ modulusOfElasticity inputs <= 0.
Proof.
  unfold basicGuard. rewrite !orb_true_iff, !leb_true. tauto.
Qed.

Lemma positionGuard_true (inputs : Inputs) :
  positionGuard inputs = true <->
  beamLength inputs < loadPosition inputs \/ loadPosition inputs < 0.
Proof.
  unfold positionGuard, L_m, a_m. rewrite orb_true_iff, !ltb_true. tauto.
Qed.

Lemma positionGuard_false (inputs : Inputs) :
  positionGuard inputs = false <->
  0 <= loadPosition inputs /\ loadPosition inputs <= beamLength inputs.
Proof.
  unfold positionGuard, L_m, a_m. rewrite orb_false_iff, !ltb_false. tauto.
Qed.

Lemma sampleDiagram_length (inputs : Inputs) (lc : LoadCase) (I_m4 : Q) :
  List.length (sampleDiagram inputs lc I_m4) = 101%nat.
Proof.
  unfold sampleDiagram. now rewrite length_map, length_seq.
Qed.

Lemma sampleDiagram_nth (inputs : Inputs) (lc : LoadCase) (I_m4 : Q) (i : nat) :
  (i <= 100)%nat ->
  nth i (sampleDiagram inputs lc I_m4) noPoint = diagramPoint inputs lc I_m4 i.
Proof.
  intro Hi. unfold sampleDiagram.
  rewrite (nth_indep _ noPoint (diagramPoint inputs lc I_m4 0%nat))
    by (rewrite length_map, length_seq; lia).
  rewrite map_nth, seq_nth by lia. reflexivity.
Qed.

Lemma position_nonneg (inputs : Inputs) (i : nat) :
  0 < beamLength inputs -> 0 <= position inputs i.
Proof.
  intro HL. unfold position, L_m. rewrite div100.
  assert (Hi : 0 <= inject_Z (Z.of_nat i)).
  { change 0 with (inject_Z 0). rewrite <- Zle_Qle. lia. }
  apply Qmult_le_0_compat; [lra | exact Hi].
Qed.

Lemma position_le (inputs : Inputs) (i j : nat) :
  0 < beamLength inputs -> (i <= j)%nat -> position inputs i <= position inputs j.
Proof.
  intros HL Hij. unfold position, L_m. rewrite div100.
  rewrite (Qmult_comm _ (inject_Z (Z.of_nat i))), (Qmult_comm _ (inject_Z (Z.of_nat j))).
  apply Qmult_le_compat_r; [|lra].
  rewrite <- Zle_Qle. lia.
Qed.

Lemma position_gap (inputs : Inputs) (i j : nat) :
  1 <= beamLength inputs -> (i < j)%nat ->
  position inputs i + (1 # 100) <= position inputs j.
Proof.
  intros HL Hij. unfold position, L_m. rewrite div100.
  assert (Hz : inject_Z (Z.of_nat i) + 1 <= inject_Z (Z.of_nat j)).
  { change 1 with (inject_Z 1). rewrite <- inject_Z_plus, <- Zle_Qle. lia. }
  assert (Hi : 0 <= inject_Z (Z.of_nat i)).
  { change 0 with (inject_Z 0). rewrite <- Zle_Qle. lia. }
  set (a := inject_Z (Z.of_nat i)) in *. set (b := inject_Z (Z.of_nat j)) in *.
  set (l := beamLength inputs) in *.
  assert (H1 : l * (1 # 100) * a + (1 # 100) <= l * (1 # 100) * (a + 1)) by nra.
  assert (H2 : l * (1 # 100) * (a + 1) <= l * (1 # 100) * b) by nra.
  lra.
Qed.

Lemma position_0 (inputs : Inputs) : position inputs 0 == 0.
Proof. unfold position. change (inject_Z (Z.of_nat 0)) with 0. ring. Qed.

Lemma position_50 (inputs : Inputs) : position inputs 50 == beamLength inputs / 2.
Proof. unfold position, L_m. change (inject_Z (Z.of_nat 50)) with 50. field. Qed.

Lemma position_100 (inputs : Inputs) : position inputs 100 == beamLength inputs.
Proof. unfold position, L_m. change (inject_Z (Z.of_nat 100)) with 100. field. Qed.

(** ** Diagram shape *)

(** C3, as stated, fails on the 0.1 m span: the request is accepted, but the
    first two diagram points both carry x = 0, so the x values are not
    strictly ascending, and the second one is not (L/100)*1 = 0.001. *)
Lemma diagram_x_not_strict_on_shortBeam :
  exists r, runCalculate shortBeam = Computed r /\
    x (nth 0 (diagramData r) noPoint) == 0 /\
    x (nth 1 (diagramData r) noPoint) == 0 /\
    ~ x (nth 0 (diagramData r) noPoint) < x (nth 1 (diagramData r) noPoint) /\
    ~ x (nth 1 (diagramData r) noPoint) == beamLength shortBeam / 100 * 1.
Proof.
  eexists. split; [reflexivity|].
  repeat split; try (vm_compute; reflexivity).
  - vm_compute. discriminate.
  - vm_compute. discriminate.
Qed.

(** C3 (amended): every accepted request gets exactly 101 diagram points;
    the x of point i is (L/100)*i put through [toFixed(2)]: less than 0.01
    away from (L/100)*i and, for L below 1e21, a whole number of hundredths;
    the x values are non-decreasing, start at 0 and end less than 0.01 away
    from L; they are strictly ascending whenever L >= 1. *)
Theorem diagram_shape (inputs : Inputs) :
  accepted inputs = true ->
  exists r, runCalculate inputs = Computed r /\
    List.length (diagramData r) = 101%nat /\
    (forall i, (i <= 100)%nat ->
       Qabs (x (nth i (diagramData r) noPoint)
             - beamLength inputs / 100 * inject_Z (Z.of_nat i)) < 1 # 100) /\
    (beamLength inputs < 1000000000000000000000 ->
     forall i, (i <= 100)%nat ->
       exists n : Z, x (nth i (diagramData r) noPoint) == inject_Z n / 100) /\
    (forall i j, (i <= j <= 100)%nat ->
       x (nth i (diagramData r) noPoint) <= x (nth j (diagramData r) noPoint)) /\
    x (nth 0 (diagramData r) noPoint) == 0 /\
    Qabs (x (nth 100 (diagramData r) noPoint) - beamLength inputs) < 1 # 100 /\
    (1 <= beamLength inputs ->
     forall i j, (i < j <= 100)%nat ->
       x (nth i (diagramData r) noPoint) < x (nth j (diagramData r) noPoint)).
Proof.
  intro Hacc.
  destruct (accepted_inv inputs Hacc) as (I_m4 & c_m & lc & Hg & _ & _ & Hrun).
  destruct (proj1 (basicGuard_false inputs) Hg) as (HL & _ & _).
  exists (aggregate inputs lc I_m4 c_m). split; [exact Hrun|].
  cbn [diagramData aggregate].
  split; [apply sampleDiagram_length|].
  split.
  { intros i Hi. rewrite sampleDiagram_nth by exact Hi. cbn [x diagramPoint].
    apply toFixed2_within. reflexivity. }
  split.
  { intros Hbig i Hi. rewrite sampleDiagram_nth by exact Hi. cbn [x diagramPoint].
    exists (JS.hundredths (position inputs i)).
    rewrite toFixed2_small_nonneg; [reflexivity | now apply position_nonneg |].
    eapply Qle_lt_trans; [|exact Hbig].
    rewrite <- (position_100 inputs). now apply position_le. }
  split.
  { intros i j [Hij Hj]. rewrite !sampleDiagram_nth by lia. cbn [x diagramPoint].
    apply toFixed2_mono; [now apply position_nonneg | now apply position_le]. }
  split.
  { rewrite sampleDiagram_nth by lia. cbn [x diagramPoint].
    rewrite position_0. apply toFixed2_0. }
  split.
  { rewrite sampleDiagram_nth by lia. cbn [x diagramPoint].
    apply toFixed2_within. apply position_100. }
  intros H1 i j [Hij Hj]. rewrite !sampleDiagram_nth by lia. cbn [x diagramPoint].
  apply toFixed2_strict; [now apply position_nonneg | now apply position_gap].
Qed.

Lemma diagram_shape_witness :
  exists r, runCalculate scenarioB = Computed r /\
    List.length (diagramData r) = 101%nat /\
    (forall i, (i <= 100)%nat ->
       Qabs (x (nth i (diagramData r) noPoint)
             - beamLength scenarioB / 100 * inject_Z (Z.of_nat i)) < 1 # 100) /\
    (beamLength scenarioB < 1000000000000000000000 ->
     forall i, (i <= 100)%nat ->
       exists n : Z, x (nth i (diagramData r) noPoint) == inject_Z n / 100) /\
    (forall i j, (i <= j <= 100)%nat ->
       x (nth i (diagramData r) noPoint) <= x (nth j (diagramData r) noPoint)) /\
    x (nth 0 (diagramData r) noPoint) == 0 /\
    Qabs (x (nth 100 (diagramData r) noPoint) - beamLength scenarioB) < 1 # 100 /\
    (1 <= beamLength scenarioB ->
     forall i j, (i < j <= 100)%nat ->
       x (nth i (diagramData r) noPoint) < x (nth j (diagramData r) noPoint)).
Proof.
  apply (diagram_shape scenarioB). vm_compute. reflexivity.
Defined.

(** ** Validation *)


Lemma resolveSection_shape_none (inputs : Inputs) :
  crossSection inputs <> custom ->
  sectionWidth inputs <= 0 \/ sectionHeight inputs <= 0 ->
  resolveSection inputs = None.
Proof.
  intros Hcs H. unfold resolveSection.
  assert (Hb : JS.leb (sectionWidth inputs) 0 || JS.leb (sectionHeight inputs) 0 = true)
    by (rewrite orb_true_iff, !leb_true; exact H).
  destruct (crossSection inputs); try congruence; now rewrite Hb.
Qed.

Lemma runCalculate_no_section (inputs : Inputs) :
  resolveSection inputs = None -> runCalculate inputs = Cleared.
Proof.
  intro H. unfold runCalculate. rewrite H. now destruct (basicGuard inputs).
Qed.


(** The requests [calculate] accepts are exactly those that pass its three
    guards; every request that meets the invariants of the data model
    (positive span, load and modulus, positive section dimensions, a point
    load within the span) is among them. *)
Lemma accepted_iff (inputs : Inputs) :
  accepted inputs = true <->
  (0 < beamLength inputs /\ 0 < load inputs /\ 0 < modulusOfElasticity inputs) /\
  match crossSection inputs with
  | custom => 0 < momentOfInertia_cm4 inputs /\ 0 < distanceToFiber_mm inputs
  | _ => 0 < sectionWidth inputs /\ 0 < sectionHeight inputs
  end /\
  (loadType inputs = point_load ->
   0 <= loadPosition inputs /\ loadPosition inputs <= beamLength inputs).
Proof.
  rewrite <- basicGuard_false.
  unfold accepted, runCalculate.
  destruct (basicGuard inputs); [split; [discriminate | intros [? _]; discriminate]|].
  assert (Hsec : (exists p, resolveSection inputs = Some p) <->
                 match crossSection inputs with
                 | custom => 0 < momentOfInertia_cm4 inputs /\ 0 < distanceToFiber_mm inputs
                 | _ => 0 < sectionWidth inputs /\ 0 < sectionHeight inputs
                 end).
  { unfold resolveSection.
    destruct (crossSection inputs);
      match goal with
      | |- context [JS.leb ?u 0 || JS.leb ?v 0] =>
          destruct (JS.leb u 0 || JS.leb v 0) eqn:Hb;
          [ apply orb_true_iff in Hb; rewrite !leb_true in Hb
          | apply orb_false_iff in Hb; rewrite !leb_false in Hb ]
      end;
      (split; [intros [p Hp]; try discriminate; tauto | intros [Hu Hv]]);
      try (exfalso; destruct Hb as [Hb|Hb];
           [apply (Qlt_not_le _ _ Hu Hb) | apply (Qlt_not_le _ _ Hv Hb)]);
      eexists; reflexivity. }
  assert (Hlc : (exists lc, solveLoadCase inputs = Some lc) <->
                (loadType inputs = point_load ->
                 0 <= loadPosition inputs /\ loadPosition inputs <= beamLength inputs)).
  { unfold solveLoadCase. rewrite <- positionGuard_false.
    destruct (beamType inputs), (loadType inputs);
      try (split; [discriminate | intros _; eexists; reflexivity]);
      destruct (positionGuard inputs);
      (split; [intros [lc Hlc]; try discriminate; auto | intro H]);
      try (specialize (H eq_refl); discriminate);
      eexists; reflexivity. }
  rewrite <- Hsec, <- Hlc.
  destruct (resolveSection inputs) as [[I_m4 c_m]|].
  - destruct (solveLoadCase inputs) as [lc|].
    + split; [intros _|reflexivity]. repeat split; eexists; reflexivity.
    + split; [discriminate|]. intros (_ & _ & [lc Hlc']). discriminate.
  - split; [discriminate|]. intros (_ & [p Hp] & _). discriminate.
Qed.




(** ** Cross-section resolution *)

(** C2, as stated, fails on an I-beam with 2*tf >= h (flanges 60 mm, height
    100 mm): the section resolves, to more than the inertia of the full
    rectangle, and a [BeamResult] is produced. *)
Lemma thick_flange_ibeam_resolves :
  crossSection thickFlangeBeam = i_beam /\
  sectionHeight thickFlangeBeam <= 2 * flangeThickness thickFlangeBeam /\
  exists I_m4 c_m r,
    resolveSection thickFlangeBeam = Some (I_m4, c_m) /\
    rectangleInertia (100 / 1000) (100 / 1000) < I_m4 /\
    runCalculate thickFlangeBeam = Computed r /\
    momentOfInertia r = I_m4.
Proof.
  split; [reflexivity|]. split; [unfold Qle; simpl; lia|].
  eexists. eexists. eexists.
  split; [reflexivity|]. split; [reflexivity|].
  split; reflexivity.
Qed.

(** C2 (amended): resolving an I-beam {b, h, tf, tw} fails (the result is
    cleared, no [BeamResult]) whenever b <= 0 or h <= 0; whenever b, h, tf
    and tw are all positive -- also when tw >= b or 2*tf >= h -- it yields
    I = I(b x h) - I((b - tw) x (h - 2*tf)) in metres, with c = h / 2. *)
Theorem ibeam_resolution (inputs : Inputs) :
  crossSection inputs = i_beam ->
  (sectionWidth inputs <= 0 \/ sectionHeight inputs <= 0 ->
   resolveSection inputs = None /\ runCalculate inputs = Cleared) /\
  (0 < sectionWidth inputs -> 0 < sectionHeight inputs ->
   0 < flangeThickness inputs -> 0 < webThickness inputs ->
   let b_m := sectionWidth inputs / 1000 in
   let h_m := sectionHeight inputs / 1000 in
   let ft_m := flangeThickness inputs / 1000 in
   let wt_m := webThickness inputs / 1000 in
   resolveSection inputs
   = Some (rectangleInertia b_m h_m - rectangleInertia (b_m - wt_m) (h_m - 2 * ft_m),
           h_m / 2)).
Proof.
  intro Hcs. split.
  - intro H.
    assert (Hn : resolveSection inputs = None).
    { apply resolveSection_shape_none; [congruence | exact H]. }
    split; [exact Hn | now apply runCalculate_no_section].
  - intros Hb Hh _ _. cbv zeta. unfold resolveSection. rewrite Hcs.
    assert (Hg : JS.leb (sectionWidth inputs) 0 || JS.leb (sectionHeight inputs) 0 = false)
      by (rewrite orb_false_iff, !leb_false; tauto).
    rewrite Hg. reflexivity.
Qed.

Lemma ibeam_resolution_witness :
  (resolveSection zeroWidthIBeam = None /\ runCalculate zeroWidthIBeam = Cleared) /\
  resolveSection plainIBeam
  = Some (rectangleInertia (100 / 1000) (200 / 1000)
          - rectangleInertia (100 / 1000 - 5 / 1000) (200 / 1000 - 2 * (10 / 1000)),
          200 / 1000 / 2).
Proof.
  split.
  - apply (proj1 (ibeam_resolution zeroWidthIBeam eq_refl)).
    left. unfold Qle. simpl. lia.
  - apply (proj2 (ibeam_resolution plainIBeam eq_refl)); reflexivity.
Defined.

(** ** Reactions *)

Ltac open_run Hacc :=
  let Hg := fresh "Hg" in
  destruct (accepted_inv _ Hacc) as (I_m4 & c_m & lc & Hg & Hsec & Hlc & Hrun);
  destruct (proj1 (basicGuard_false _) Hg) as (HL & HP & HE).

(** C4: for every accepted simply-supported request r1 + r2 is the total
    applied load (P for a point load, w*L for a UDL) -- exactly, hence within
    relative tolerance 1e-9 -- and for every accepted cantilever request r1
    is the total applied load. *)
Theorem reaction_equilibrium (inputs : Inputs) :
  accepted inputs = true ->
  exists r, runCalculate inputs = Computed r /\
    let total := match loadType inputs with
                 | point_load => load inputs
                 | udl => load inputs * beamLength inputs
                 end in
    match beamType inputs with
    | simply_supported =>
        r1 (reactions r) + r2 (reactions r) == total /\
        Qabs (r1 (reactions r) + r2 (reactions r) - total) <= (1 # 1000000000) * Qabs total
    | cantilever => r1 (reactions r) == total
    end.
Proof.
  intro Hacc. open_run Hacc.
  exists (aggregate inputs lc I_m4 c_m). split; [exact Hrun|].
  assert (HL0 : ~ beamLength inputs == 0) by lra.
  assert (Htol : forall s t : Q, s == t -> Qabs (s - t) <= (1 # 1000000000) * Qabs t).
  { intros s t Hst. setoid_replace (s - t) with 0 by lra.
    change (Qabs 0) with 0. pose proof (Qabs_nonneg t). lra. }
  destruct (beamType inputs) eqn:Hbt, (loadType inputs) eqn:Hlt;
    unfold solveLoadCase in Hlc; rewrite Hbt, Hlt in Hlc;
    try (destruct (positionGuard inputs); [discriminate|]);
    injection Hlc as <-;
    cbn [aggregate reactions reactions_N r1 r2]; cbv zeta;
    unfold P_N, w_Nm, b_len, L_m, a_m.
  - assert (Hs : load inputs * 1000 * (beamLength inputs - loadPosition inputs)
                 / beamLength inputs / 1000
                 + load inputs * 1000 * loadPosition inputs / beamLength inputs / 1000
                 == load inputs) by (field; exact HL0).
    split; [exact Hs | now apply Htol].
  - assert (Hs : load inputs * 1000 * beamLength inputs / 2 / 1000
                 + load inputs * 1000 * beamLength inputs / 2 / 1000
                 == load inputs * beamLength inputs) by field.
    split; [exact Hs | now apply Htol].
  - field.
  - field.
Qed.

Lemma reaction_equilibrium_witness :
  exists r, runCalculate initialInputs = Computed r /\
    r1 (reactions r) + r2 (reactions r) == 100 /\
    Qabs (r1 (reactions r) + r2 (reactions r) - 100) <= (1 # 1000000000) * Qabs 100.
Proof.
  apply (reaction_equilibrium initialInputs). reflexivity.
Defined.

(** ** Simply supported beam under a uniformly distributed load *)

(** The parabola w*x*(L - x)/2 is highest at mid-span. *)
Lemma udl_moment_le_midspan (wN l t : Q) :
  0 <= wN ->
  (wN * l / 2 * t - wN * t * t / 2) / 1000
  <= (wN * l / 2 * (l / 2) - wN * (l / 2) * (l / 2) / 2) / 1000.
Proof.
  intro Hw.
  assert (Hsq : 0 <= wN * ((t - l * (1 # 2)) * (t - l * (1 # 2)))).
  { apply Qmult_le_0_compat; [exact Hw|].
    generalize (t - l * (1 # 2)). intro u. nra. }
  setoid_replace ((wN * l / 2 * t - wN * t * t / 2) / 1000)
    with ((wN * l * t - wN * t * t) * (1 # 2000)) by field.
  setoid_replace ((wN * l / 2 * (l / 2) - wN * (l / 2) * (l / 2) / 2) / 1000)
    with ((wN * l * l) * (1 # 8000)) by field.
  nra.
Qed.

Lemma udl_moment_nonneg (wN l t : Q) :
  0 <= wN -> 0 <= t -> t <= l ->
  0 <= (wN * l / 2 * t - wN * t * t / 2) / 1000.
Proof.
  intros Hw Ht Htl.
  setoid_replace ((wN * l / 2 * t - wN * t * t / 2) / 1000)
    with (wN * (t * (l - t)) * (1 # 2000)) by field.
  assert (H1 : 0 <= t * (l - t)) by (apply Qmult_le_0_compat; lra).
  assert (H2 : 0 <= wN * (t * (l - t))) by (apply Qmult_le_0_compat; assumption).
  lra.
Qed.

(** C5: for every accepted simply-supported UDL request r1 = r2 = w*L/2 and
    maxMoment = w*L^2/8; the diagram moment is largest at sample 50, the one
    taken at mid-span: its stored x is less than 0.01 away from L/2 and its
    stored moment less than 0.01 away from w*L^2/8. *)
Theorem symmetric_udl (inputs : Inputs) :
  accepted inputs = true ->
  beamType inputs = simply_supported ->
  loadType inputs = udl ->
  exists r, runCalculate inputs = Computed r /\
    r1 (reactions r) == load inputs * beamLength inputs / 2 /\
    r2 (reactions r) == load inputs * beamLength inputs / 2 /\
    maxMoment r == load inputs * beamLength inputs ^ 2 / 8 /\
    Qabs (x (nth 50 (diagramData r) noPoint) - beamLength inputs / 2) < 1 # 100 /\
    Qabs (moment (nth 50 (diagramData r) noPoint)
          - load inputs * beamLength inputs ^ 2 / 8) < 1 # 100 /\
    (forall i, (i <= 100)%nat ->
       moment (nth i (diagramData r) noPoint) <= moment (nth 50 (diagramData r) noPoint)).
Proof.
  intros Hacc Hbt Hlt. open_run Hacc.
  exists (aggregate inputs lc I_m4 c_m). split; [exact Hrun|].
  unfold solveLoadCase in Hlc. rewrite Hbt, Hlt in Hlc. injection Hlc as <-.
  cbn [aggregate reactions reactions_N r1 r2 maxMoment maxMoment_Nm diagramData].
  unfold w_Nm, L_m.
  split; [field|]. split; [field|]. split; [field|].
  split.
  { rewrite sampleDiagram_nth by lia. cbn [x diagramPoint].
    apply toFixed2_within. apply position_50. }
  assert (Hm : forall i, (i <= 100)%nat ->
            moment (nth i (sampleDiagram inputs
                      {| maxMoment_Nm := load inputs * 1000 * beamLength inputs
                                         * beamLength inputs / 8;
                         maxShear_N := load inputs * 1000 * beamLength inputs / 2;
                         reactions_N := {| r1 := load inputs * 1000 * beamLength inputs / 2;
                                           r2 := load inputs * 1000 * beamLength inputs / 2 |} |}
                      I_m4) noPoint)
            = JS.toFixed2 ((load inputs * 1000 * beamLength inputs / 2 * position inputs i
                            - load inputs * 1000 * position inputs i * position inputs i / 2)
                           / 1000)).
  { intros i Hi. rewrite sampleDiagram_nth by exact Hi.
    unfold diagramPoint, evalAt. rewrite Hbt, Hlt. reflexivity. }
  split.
  { rewrite Hm by lia. apply toFixed2_within. rewrite position_50. field. }
  intros i Hi. rewrite !Hm by lia.
  assert (Hw : 0 <= load inputs * 1000) by lra.
  apply toFixed2_mono.
  - apply udl_moment_nonneg; [exact Hw | now apply position_nonneg |].
    rewrite <- (position_100 inputs). apply position_le; [exact HL | exact Hi].
  - assert (Hmid := udl_moment_le_midspan (load inputs * 1000) (beamLength inputs)
                      (position inputs i) Hw).
    rewrite (position_50 inputs). exact Hmid.
Qed.

(** Scenario B: L = 10 m and w = 100 kN/m give r1 = r2 = 500 kN and
    maxMoment = 1250 kN*m, reached by the diagram at x = 5 m. *)
Lemma symmetric_udl_witness :
  exists r, runCalculate scenarioB = Computed r /\
    r1 (reactions r) == 500 /\
    r2 (reactions r) == 500 /\
    maxMoment r == 1250 /\
    x (nth 50 (diagramData r) noPoint) == 5 /\
    moment (nth 50 (diagramData r) noPoint) == 1250 /\
    (forall i, (i <= 100)%nat ->
       moment (nth i (diagramData r) noPoint) <= moment (nth 50 (diagramData r) noPoint)).
Proof.
  destruct (symmetric_udl scenarioB eq_refl eq_refl eq_refl)
    as (r & Hrun & H1 & H2 & HM & _ & _ & Hmax).
  exists r. split; [exact Hrun|].
  split; [rewrite H1; reflexivity|].
  split; [rewrite H2; reflexivity|].
  split; [rewrite HM; reflexivity|].
  assert (Hr : r = aggregate scenarioB
                     {| maxMoment_Nm := w_Nm scenarioB * L_m scenarioB * L_m scenarioB / 8;
                        maxShear_N := w_Nm scenarioB * L_m scenarioB / 2;
                        reactions_N := {| r1 := w_Nm scenarioB * L_m scenarioB / 2;
                                          r2 := w_Nm scenarioB * L_m scenarioB / 2 |} |}
                     (150 / 1000 * JS.pow3 (300 / 1000) / 12) (300 / 1000 / 2)).
  { unfold scenarioB, mkInputs in Hrun. injection Hrun as <-. reflexivity. }
  split; [rewrite Hr; vm_compute; reflexivity|].
  split; [rewrite Hr; vm_compute; reflexivity | exact Hmax].
Defined.

(** ** Cantilever under a point load *)



(** ** Bending stress *)



(** ** Load position under a uniformly distributed load *)

(** C8: two requests with loadType UDL that differ only in loadPosition end
    the same way, with the same [BeamResult] in every field and diagram
    point, and leave the same component state. *)
Theorem udl_ignores_loadPosition (inputs : Inputs) (a' : Q) :
  loadType inputs = udl ->
  runCalculate (withLoadPosition a' inputs) = runCalculate inputs /\
  forall st, calculate (withLoadPosition a' inputs) st = calculate inputs st.
Proof.
  intro Hlt.
  assert (Hrun : runCalculate (withLoadPosition a' inputs) = runCalculate inputs).
  { destruct inputs as [L P a bt lt cs ss b h tf tw ep E0 Ic cf].
    cbn in Hlt. subst lt.
    unfold runCalculate, withLoadPosition, basicGuard, resolveSection, solveLoadCase;
      cbn [beamLength load loadPosition beamType loadType crossSection standardSize
           sectionWidth sectionHeight flangeThickness webThickness
           modulusOfElasticityPreset modulusOfElasticity momentOfInertia_cm4
           distanceToFiber_mm].
    destruct bt; reflexivity. }
  split; [exact Hrun|].
  intro st. unfold calculate. rewrite Hrun.
  destruct (runCalculate inputs); reflexivity.
Qed.

Lemma udl_ignores_loadPosition_witness :
  runCalculate (withLoadPosition 99 scenarioB) = runCalculate scenarioB /\
  forall st, calculate (withLoadPosition 99 scenarioB) st = calculate scenarioB st.
Proof.
  apply (udl_ignores_loadPosition scenarioB 99). reflexivity.
Defined.

(** ** Sign of the cantilever moment *)

(** C9: for every accepted cantilever request maxMoment is not positive and
    is the moment reaction r2 in kN*m: -(P_N*a)/1000 for a point load,
    -(w_Nm*L^2/2)/1000 for a UDL.  The absolute value enters only maxStress,
    which is (-maxMoment in N*m) * c / I / 1e6. *)
Theorem cantilever_maxMoment_sign (inputs : Inputs) :
  accepted inputs = true ->
  beamType inputs = cantilever ->
  exists r I_m4 c_m, runCalculate inputs = Computed r /\
    resolveSection inputs = Some (I_m4, c_m) /\
    maxMoment r <= 0 /\
    maxMoment r == r2 (reactions r) /\
    maxMoment r ==
      match loadType inputs with
      | point_load => - (P_N inputs * loadPosition inputs) / 1000
      | udl => - (w_Nm inputs * beamLength inputs ^ 2 / 2) / 1000
      end /\
    maxStress r == (- (maxMoment r * 1000)) * c_m / I_m4 / 1000000.
Proof.
  intros Hacc Hbt. open_run Hacc.
  exists (aggregate inputs lc I_m4 c_m), I_m4, c_m.
  split; [exact Hrun|]. split; [exact Hsec|].
  assert (Hlc' : maxMoment_Nm lc = r2 (reactions_N lc) /\
                 maxMoment_Nm lc <= 0 /\
                 maxMoment_Nm lc ==
                 match loadType inputs with
                 | point_load => - (P_N inputs * loadPosition inputs)
                 | udl => - (w_Nm inputs * beamLength inputs ^ 2 / 2)
                 end).
  { unfold solveLoadCase in Hlc. rewrite Hbt in Hlc.
    destruct (loadType inputs).
    - destruct (positionGuard inputs) eqn:Hpos; [discriminate|].
      apply positionGuard_false in Hpos. destruct Hpos as [Ha _].
      injection Hlc as <-. cbn [maxMoment_Nm reactions_N r2]. unfold P_N, a_m.
      split; [reflexivity|]. split; [|ring].
      assert (H0 : 0 <= load inputs * 1000 * loadPosition inputs)
        by (apply Qmult_le_0_compat; lra).
      lra.
    - injection Hlc as <-. cbn [maxMoment_Nm reactions_N r2]. unfold w_Nm, L_m.
      split; [reflexivity|]. split; [|field].
      assert (H0 : 0 <= load inputs * 1000 * beamLength inputs * beamLength inputs).
      { apply Qmult_le_0_compat; [|lra]. apply Qmult_le_0_compat; lra. }
      setoid_replace (- (load inputs * 1000 * beamLength inputs * beamLength inputs) / 2)
        with (- (load inputs * 1000 * beamLength inputs * beamLength inputs) * (1 # 2))
        by field.
      lra. }
  destruct Hlc' as (Heq & Hneg & Hval).
  cbn [aggregate maxMoment maxStress reactions r2].
  assert (Hk : maxMoment_Nm lc / 1000 == maxMoment_Nm lc * (1 # 1000)) by field.
  split; [rewrite Hk; lra|].
  split; [rewrite Heq; reflexivity|].
  split.
  - rewrite Hval. destruct (loadType inputs); reflexivity.
  - rewrite (Qabs_neg _ Hneg).
    setoid_replace (maxMoment_Nm lc / 1000 * 1000) with (maxMoment_Nm lc) by field.
    reflexivity.
Qed.

(** Scenario C: 50 kN at the tip of a 5 m cantilever gives r2 = maxMoment =
    -250 kN*m (250 only in absolute value). *)
Lemma cantilever_maxMoment_sign_witness :
  exists r, runCalculate scenarioC = Computed r /\
    maxMoment r <= 0 /\
    maxMoment r == r2 (reactions r) /\
    maxMoment r == -250.
Proof.
  destruct (cantilever_maxMoment_sign scenarioC eq_refl eq_refl)
    as (r & I_m4 & c_m & Hrun & _ & Hle & Hr2 & Hval & _).
  exists r. split; [exact Hrun|].
  split; [exact Hle|]. split; [exact Hr2|].
  rewrite Hval. reflexivity.
Defined.

(** ** Point load on a support *)

(** C10: on a simply-supported beam the position guard rejects exactly
    a < 0 and a > L.  With the load on the left support (a = 0) or on the
    right one (a = L) the request is accepted, maxMoment and maxStress are 0,
    a full 101-point [BeamResult] is produced, and the reactions are r1 = P,
    r2 = 0, respectively r1 = 0, r2 = P. *)
Theorem point_load_on_support (inputs : Inputs) (I_m4 c_m : Q) :
  beamType inputs = simply_supported ->
  loadType inputs = point_load ->
  0 < beamLength inputs -> 0 < load inputs -> 0 < modulusOfElasticity inputs ->
  resolveSection inputs = Some (I_m4, c_m) ->
  0 < I_m4 ->
  (positionGuard inputs = true <->
   beamLength inputs < loadPosition inputs \/ loadPosition inputs < 0) /\
  (loadPosition inputs == 0 ->
   exists r, runCalculate inputs = Computed r /\
     List.length (diagramData r) = 101%nat /\
     maxMoment r == 0 /\ maxStress r == 0 /\
     r1 (reactions r) == load inputs /\ r2 (reactions r) == 0) /\
  (loadPosition inputs == beamLength inputs ->
   exists r, runCalculate inputs = Computed r /\
     List.length (diagramData r) = 101%nat /\
     maxMoment r == 0 /\ maxStress r == 0 /\
     r1 (reactions r) == 0 /\ r2 (reactions r) == load inputs).
Proof.
  intros Hbt Hlt HL HP HE Hsec HI.
  split; [apply positionGuard_true|].
  assert (Hg : basicGuard inputs = false) by (apply basicGuard_false; auto).
  assert (HL0 : ~ beamLength inputs == 0) by lra.
  assert (HI0 : ~ I_m4 == 0) by lra.
  assert (Hrun : positionGuard inputs = false ->
            runCalculate inputs
            = Computed (aggregate inputs
                {| maxMoment_Nm := (P_N inputs * a_m inputs * b_len inputs) / L_m inputs;
                   maxShear_N :=
                     Qmax (Qabs ((P_N inputs * b_len inputs) / L_m inputs))
                          (Qabs ((P_N inputs * a_m inputs) / L_m inputs));
                   reactions_N := {| r1 := (P_N inputs * b_len inputs) / L_m inputs;
                                     r2 := (P_N inputs * a_m inputs) / L_m inputs |} |}
                I_m4 c_m)).
  { intro Hpos. unfold runCalculate, solveLoadCase.
    rewrite Hg, Hsec, Hbt, Hlt, Hpos. reflexivity. }
  assert (Hstress : forall m : Q, m == 0 -> Qabs m * c_m / I_m4 / 1000000 == 0).
  { intros m Hm. rewrite Hm. change (Qabs 0) with 0. field. exact HI0. }
  split; intro Ha.
  - assert (Hpos : positionGuard inputs = false) by (apply positionGuard_false; lra).
    eexists. split; [exact (Hrun Hpos)|].
    split; [apply sampleDiagram_length|].
    cbn [aggregate maxMoment maxStress reactions maxMoment_Nm reactions_N r1 r2].
    unfold P_N, a_m, b_len, L_m, a_m.
    assert (HM : load inputs * 1000 * loadPosition inputs
                 * (beamLength inputs - loadPosition inputs) / beamLength inputs == 0)
      by (rewrite Ha; field; exact HL0).
    split; [rewrite HM; reflexivity|].
    split; [now apply Hstress|].
    split; rewrite Ha; field; exact HL0.
  - assert (Hpos : positionGuard inputs = false) by (apply positionGuard_false; lra).
    eexists. split; [exact (Hrun Hpos)|].
    split; [apply sampleDiagram_length|].
    cbn [aggregate maxMoment maxStress reactions maxMoment_Nm reactions_N r1 r2].
    unfold P_N, a_m, b_len, L_m, a_m.
    assert (HM : load inputs * 1000 * loadPosition inputs
                 * (beamLength inputs - loadPosition inputs) / beamLength inputs == 0)
      by (rewrite Ha; field; exact HL0).
    split; [rewrite HM; reflexivity|].
    split; [now apply Hstress|].
    split; rewrite Ha; field; exact HL0.
Qed.

Lemma point_load_on_support_witness :
  (exists r, runCalculate loadOnLeftSupport = Computed r /\
     List.length (diagramData r) = 101%nat /\
     maxMoment r == 0 /\ maxStress r == 0 /\
     r1 (reactions r) == 100 /\ r2 (reactions r) == 0) /\
  (exists r, runCalculate loadOnRightSupport = Computed r /\
     List.length (diagramData r) = 101%nat /\
     maxMoment r == 0 /\ maxStress r == 0 /\
     r1 (reactions r) == 0 /\ r2 (reactions r) == 100).
Proof.
  split.
  - eapply (proj1 (proj2 (point_load_on_support loadOnLeftSupport _ _
                            eq_refl eq_refl eq_refl eq_refl eq_refl eq_refl eq_refl))).
    reflexivity.
  - eapply (proj2 (proj2 (point_load_on_support loadOnRightSupport _ _
                            eq_refl eq_refl eq_refl eq_refl eq_refl eq_refl eq_refl))).
    reflexivity.
Defined.

(** ** Input history: undo and redo *)

Section UndoRedoFacts.

Context {A : Type} (sameJSON : A -> A -> bool) (initialInputs : A).

Lemma inputs_defined (s : UndoRedo.t A) :
  (exists cur, UndoRedo.inputs A s = Some cur)
  <-> (UndoRedo.currentIndex s < List.length (UndoRedo.inputHistory s))%nat.
Proof.
  unfold UndoRedo.inputs. rewrite <- nth_error_Some.
  destruct (nth_error (UndoRedo.inputHistory s) (UndoRedo.currentIndex s)).
  - split; [discriminate | intros _; eexists; reflexivity].
  - split; [intros [cur H]; discriminate | intro H; now elim H].
Qed.

(** What a changing [setInputs] builds. *)
Lemma setInputs_changed (v : A + (A -> A)) (s : UndoRedo.t A) (cur : A) :
  UndoRedo.inputs A s = Some cur ->
  sameJSON (match v with inr f => f cur | inl n => n end) cur = false ->
  UndoRedo.setInputs A sameJSON v s
  = {| UndoRedo.inputHistory :=
         firstn (UndoRedo.currentIndex s + 1) (UndoRedo.inputHistory s)
         ++ [match v with inr f => f cur | inl n => n end];
       UndoRedo.currentIndex := UndoRedo.currentIndex s + 1 |}.
Proof.
  intros Hcur Hdiff.
  assert (Hlt : (UndoRedo.currentIndex s < List.length (UndoRedo.inputHistory s))%nat)
    by (apply inputs_defined; eauto).
  unfold UndoRedo.setInputs. rewrite Hcur. cbv zeta. rewrite Hdiff.
  f_equal. rewrite length_app, length_firstn. cbn [List.length]. lia.
Qed.

(** X1: from the mounted state on, every operation keeps [currentIndex]
    inside [inputHistory]: the component always has current inputs. *)
Theorem input_history_always_has_current (v : A + (A -> A)) (s : UndoRedo.t A) :
  (exists cur, UndoRedo.inputs A s = Some cur) ->
  (exists cur, UndoRedo.inputs A (UndoRedo.setInputs A sameJSON v s) = Some cur) /\
  (exists cur, UndoRedo.inputs A (UndoRedo.undo A s) = Some cur) /\
  (exists cur, UndoRedo.inputs A (UndoRedo.redo A s) = Some cur) /\
  UndoRedo.inputs A (UndoRedo.handleReset A initialInputs s) = Some initialInputs /\
  UndoRedo.inputs A (UndoRedo.mounted A initialInputs) = Some initialInputs.
Proof.
  intros [cur Hcur].
  assert (Hlt : (UndoRedo.currentIndex s < List.length (UndoRedo.inputHistory s))%nat)
    by (apply inputs_defined; eauto).
  split; [|split; [|split; [|split; reflexivity]]].
  - destruct (sameJSON (match v with inr f => f cur | inl n => n end) cur) eqn:Hs.
    + unfold UndoRedo.setInputs. rewrite Hcur. cbv zeta. rewrite Hs. eauto.
    + rewrite (setInputs_changed v s cur Hcur Hs). apply inputs_defined.
      cbn [UndoRedo.inputHistory UndoRedo.currentIndex].
      rewrite length_app, length_firstn. cbn [List.length]. lia.
  - apply inputs_defined. unfold UndoRedo.undo.
    destruct (0 <? UndoRedo.currentIndex s)%nat;
      cbn [UndoRedo.inputHistory UndoRedo.currentIndex]; lia.
  - apply inputs_defined. unfold UndoRedo.redo.
    destruct (UndoRedo.currentIndex s + 1 <? List.length (UndoRedo.inputHistory s))%nat eqn:Hr;
      cbn [UndoRedo.inputHistory UndoRedo.currentIndex]; [|lia].
    apply Nat.ltb_lt in Hr. lia.
Qed.

(** X2: an edit that changes the inputs makes the new snapshot current,
    can be undone but not redone; undoing it brings the previous inputs
    back and redoing then returns to the edited state. *)
Theorem edit_then_undo_restores (v : A + (A -> A)) (s : UndoRedo.t A) (cur : A) :
  UndoRedo.inputs A s = Some cur ->
  sameJSON (match v with inr f => f cur | inl n => n end) cur = false ->
  UndoRedo.inputs A (UndoRedo.setInputs A sameJSON v s) = Some (match v with inr f => f cur | inl n => n end) /\
  UndoRedo.canUndo A (UndoRedo.setInputs A sameJSON v s) = true /\
  UndoRedo.canRedo A (UndoRedo.setInputs A sameJSON v s) = false /\
  UndoRedo.inputs A (UndoRedo.undo A (UndoRedo.setInputs A sameJSON v s)) = Some cur /\
  UndoRedo.redo A (UndoRedo.undo A (UndoRedo.setInputs A sameJSON v s)) = UndoRedo.setInputs A sameJSON v s.
Proof.
  intros Hcur Hdiff.
  assert (Hlt : (UndoRedo.currentIndex s < List.length (UndoRedo.inputHistory s))%nat)
    by (apply inputs_defined; eauto).
  rewrite (setInputs_changed v s cur Hcur Hdiff).
  set (next := match v with inr f => f cur | inl n => n end).
  set (i := UndoRedo.currentIndex s) in *.
  set (l := UndoRedo.inputHistory s) in *.
  assert (Hlen : List.length (firstn (i + 1) l) = (i + 1)%nat)
    by (rewrite length_firstn; lia).
  assert (Hu : (0 <? i + 1)%nat = true) by (apply Nat.ltb_lt; lia).
  split.
  { unfold UndoRedo.inputs. cbn [UndoRedo.inputHistory UndoRedo.currentIndex].
    rewrite nth_error_app2 by lia. rewrite Hlen, Nat.sub_diag. reflexivity. }
  split; [exact Hu|].
  split.
  { unfold UndoRedo.canRedo. cbn [UndoRedo.inputHistory UndoRedo.currentIndex].
    apply Nat.ltb_ge. rewrite length_app, Hlen. cbn [List.length]. lia. }
  unfold UndoRedo.undo. cbn [UndoRedo.inputHistory UndoRedo.currentIndex]. rewrite Hu.
  split.
  { unfold UndoRedo.inputs. cbn [UndoRedo.inputHistory UndoRedo.currentIndex].
    replace (i + 1 - 1)%nat with i by lia.
    rewrite nth_error_app1 by lia.
    rewrite nth_error_firstn.
    assert (Hb : (i <? i + 1)%nat = true) by (apply Nat.ltb_lt; lia).
    rewrite Hb. exact Hcur. }
  unfold UndoRedo.redo. cbn [UndoRedo.inputHistory UndoRedo.currentIndex].
  assert (Hr : (i + 1 - 1 + 1 <? List.length (firstn (i + 1) l ++ [next]))%nat = true).
  { apply Nat.ltb_lt. rewrite length_app, Hlen. cbn [List.length]. lia. }
  rewrite Hr. f_equal. lia.
Qed.

(** X3: undo and redo are inverse to each other wherever they are enabled. *)
Theorem input_undo_redo_inverse (s : UndoRedo.t A) :
  (UndoRedo.canUndo A s = true ->
   (UndoRedo.currentIndex s < List.length (UndoRedo.inputHistory s))%nat ->
   UndoRedo.redo A (UndoRedo.undo A s) = s) /\
  (UndoRedo.canRedo A s = true -> UndoRedo.undo A (UndoRedo.redo A s) = s).
Proof.
  destruct s as [l i]. unfold UndoRedo.canUndo, UndoRedo.canRedo, UndoRedo.undo, UndoRedo.redo.
  cbn [UndoRedo.inputHistory UndoRedo.currentIndex].
  split.
  - intros Hu Hlt. rewrite Hu. cbn [UndoRedo.inputHistory UndoRedo.currentIndex].
    apply Nat.ltb_lt in Hu.
    assert (Hr : (i - 1 + 1 <? List.length l)%nat = true) by (apply Nat.ltb_lt; lia).
    rewrite Hr. f_equal. lia.
  - intro Hr. rewrite Hr. cbn [UndoRedo.inputHistory UndoRedo.currentIndex].
    assert (Hu : (0 <? i + 1)%nat = true) by (apply Nat.ltb_lt; lia).
    rewrite Hu. f_equal. lia.
Qed.

(** X4: an edit that changes the inputs discards exactly the snapshots
    after the current one and appends the new snapshot: the new history is
    the old history up to and including the current snapshot followed by
    the new snapshot, so it is one longer than that prefix, agrees with the
    old history up to the current index and holds the new snapshot right
    after it, whatever could be redone before. *)
Theorem edit_truncates_redo_branch (v : A + (A -> A)) (s : UndoRedo.t A) (cur : A) :
  UndoRedo.inputs A s = Some cur ->
  sameJSON (match v with inr f => f cur | inl n => n end) cur = false ->
  UndoRedo.inputHistory (UndoRedo.setInputs A sameJSON v s)
  = firstn (UndoRedo.currentIndex s + 1) (UndoRedo.inputHistory s)
    ++ [match v with inr f => f cur | inl n => n end] /\
  nth_error (UndoRedo.inputHistory (UndoRedo.setInputs A sameJSON v s))
            (UndoRedo.currentIndex s + 1)
  = Some (match v with inr f => f cur | inl n => n end) /\
  firstn (UndoRedo.currentIndex s + 1) (UndoRedo.inputHistory (UndoRedo.setInputs A sameJSON v s))
  = firstn (UndoRedo.currentIndex s + 1) (UndoRedo.inputHistory s) /\
  List.length (UndoRedo.inputHistory (UndoRedo.setInputs A sameJSON v s)) = (UndoRedo.currentIndex s + 2)%nat /\
  (forall k, (k <= UndoRedo.currentIndex s)%nat ->
     nth_error (UndoRedo.inputHistory (UndoRedo.setInputs A sameJSON v s)) k
     = nth_error (UndoRedo.inputHistory s) k).
Proof.
  intros Hcur Hdiff.
  assert (Hlt : (UndoRedo.currentIndex s < List.length (UndoRedo.inputHistory s))%nat)
    by (apply inputs_defined; eauto).
  rewrite (setInputs_changed v s cur Hcur Hdiff).
  cbn [UndoRedo.inputHistory UndoRedo.currentIndex].
  set (i := UndoRedo.currentIndex s) in *.
  set (l := UndoRedo.inputHistory s) in *.
  assert (Hlen : List.length (firstn (i + 1) l) = (i + 1)%nat)
    by (rewrite length_firstn; lia).
  split; [reflexivity|].
  split.
  { rewrite nth_error_app2 by lia. rewrite Hlen, Nat.sub_diag. reflexivity. }
  split.
  { rewrite firstn_app, Hlen, Nat.sub_diag, firstn_firstn, Nat.min_id.
    cbn [firstn]. now rewrite app_nil_r. }
  split.
  { rewrite length_app, Hlen. cbn [List.length]. lia. }
  intros k Hk. rewrite nth_error_app1 by lia.
  rewrite nth_error_firstn.
  assert (Hb : (k <? i + 1)%nat = true) by (apply Nat.ltb_lt; lia).
  now rewrite Hb.
Qed.

End UndoRedoFacts.

Lemma input_history_always_has_current_witness :
  (exists cur, UndoRedo.inputs Inputs
                 (setBeamInputs (inl scenarioB) (UndoRedo.mounted Inputs initialInputs))
               = Some cur) /\
  (exists cur, UndoRedo.inputs Inputs
                 (UndoRedo.undo Inputs (UndoRedo.mounted Inputs initialInputs)) = Some cur) /\
  (exists cur, UndoRedo.inputs Inputs
                 (UndoRedo.redo Inputs (UndoRedo.mounted Inputs initialInputs)) = Some cur) /\
  UndoRedo.inputs Inputs
    (UndoRedo.handleReset Inputs initialInputs (UndoRedo.mounted Inputs initialInputs))
  = Some initialInputs /\
  UndoRedo.inputs Inputs (UndoRedo.mounted Inputs initialInputs) = Some initialInputs.
Proof.
  apply (input_history_always_has_current sameInputsJSON initialInputs (inl scenarioB)
           (UndoRedo.mounted Inputs initialInputs)).
  exists initialInputs. reflexivity.
Defined.

Lemma edit_then_undo_restores_witness :
  UndoRedo.inputs Inputs (setBeamInputs (inl scenarioB) (UndoRedo.mounted Inputs initialInputs))
  = Some scenarioB /\
  UndoRedo.canUndo Inputs
    (setBeamInputs (inl scenarioB) (UndoRedo.mounted Inputs initialInputs)) = true /\
  UndoRedo.canRedo Inputs
    (setBeamInputs (inl scenarioB) (UndoRedo.mounted Inputs initialInputs)) = false /\
  UndoRedo.inputs Inputs
    (UndoRedo.undo Inputs
       (setBeamInputs (inl scenarioB) (UndoRedo.mounted Inputs initialInputs)))
  = Some initialInputs /\
  UndoRedo.redo Inputs
    (UndoRedo.undo Inputs
       (setBeamInputs (inl scenarioB) (UndoRedo.mounted Inputs initialInputs)))
  = setBeamInputs (inl scenarioB) (UndoRedo.mounted Inputs initialInputs).
Proof.
  apply (edit_then_undo_restores sameInputsJSON (inl scenarioB)
           (UndoRedo.mounted Inputs initialInputs) initialInputs); reflexivity.
Defined.

Lemma input_undo_redo_inverse_witness :
  UndoRedo.redo Inputs
    (UndoRedo.undo Inputs
       {| UndoRedo.inputHistory := [initialInputs; scenarioB; scenarioC];
          UndoRedo.currentIndex := 1 |})
  = {| UndoRedo.inputHistory := [initialInputs; scenarioB; scenarioC];
       UndoRedo.currentIndex := 1 |} /\
  UndoRedo.undo Inputs
    (UndoRedo.redo Inputs
       {| UndoRedo.inputHistory := [initialInputs; scenarioB; scenarioC];
          UndoRedo.currentIndex := 1 |})
  = {| UndoRedo.inputHistory := [initialInputs; scenarioB; scenarioC];
       UndoRedo.currentIndex := 1 |}.
Proof.
  split.
  - apply (proj1 (input_undo_redo_inverse
                    {| UndoRedo.inputHistory := [initialInputs; scenarioB; scenarioC];
                       UndoRedo.currentIndex := 1 |})); [reflexivity | simpl; lia].
  - apply (proj2 (input_undo_redo_inverse
                    {| UndoRedo.inputHistory := [initialInputs; scenarioB; scenarioC];
                       UndoRedo.currentIndex := 1 |})). reflexivity.
Defined.

Lemma edit_truncates_redo_branch_witness :
  UndoRedo.inputHistory
    (setBeamInputs (inl scenarioC)
       {| UndoRedo.inputHistory := [initialInputs; scenarioB];
          UndoRedo.currentIndex := 0 |})
  = [initialInputs; scenarioC] /\
  firstn 1 (UndoRedo.inputHistory
              (setBeamInputs (inl scenarioC)
                 {| UndoRedo.inputHistory := [initialInputs; scenarioB];
                    UndoRedo.currentIndex := 0 |}))
  = [initialInputs] /\
  List.length (UndoRedo.inputHistory
                 (setBeamInputs (inl scenarioC)
                    {| UndoRedo.inputHistory := [initialInputs; scenarioB];
                       UndoRedo.currentIndex := 0 |})) = 2%nat.
Proof.
  destruct (edit_truncates_redo_branch sameInputsJSON (inl scenarioC)
              {| UndoRedo.inputHistory := [initialInputs; scenarioB];
                 UndoRedo.currentIndex := 0 |} initialInputs eq_refl eq_refl)
    as (H0 & _ & H1 & H2 & _).
  split; [exact H0 | split; [exact H1 | exact H2]].
Defined.

(** ** Consistent sections *)

Lemma mult_lt_mono (a b c d : Q) : 0 < a -> a < b -> 0 < c -> c < d -> a * c < b * d.
Proof.
  intros Ha Hab Hc Hcd.
  apply Qlt_trans with (a * d).
  - apply Qmult_lt_l; assumption.
  - apply Qmult_lt_r; lra.
Qed.

Lemma cube_pos (v : Q) : 0 < v -> 0 < v ^ 3.
Proof.
  intro Hv. change (v ^ 3) with (v * (v * v)).
  assert (H2 : 0 < v * v) by (apply Qmult_lt_0_compat; assumption).
  apply Qmult_lt_0_compat; assumption.
Qed.

Lemma cube_lt (v h : Q) : 0 < v -> v < h -> v ^ 3 < h ^ 3.
Proof.
  intros Hv Hvh. change (v ^ 3) with (v * (v * v)). change (h ^ 3) with (h * (h * h)).
  assert (H2 : 0 < v * v) by (apply Qmult_lt_0_compat; assumption).
  apply mult_lt_mono; try assumption.
  apply mult_lt_mono; assumption.
Qed.

Lemma hollow_lt_full (u b v h : Q) :
  0 < u -> u < b -> 0 < v -> v < h -> 0 < u * v ^ 3 /\ u * v ^ 3 < b * h ^ 3.
Proof.
  intros Hu Hub Hv Hvh.
  pose proof (cube_pos v Hv) as Hc. pose proof (cube_lt v h Hv Hvh) as Hl.
  split; [apply Qmult_lt_0_compat; assumption | apply mult_lt_mono; assumption].
Qed.

Lemma resolveSection_ibeam (inputs : Inputs) :
  crossSection inputs = i_beam ->
  0 < sectionWidth inputs -> 0 < sectionHeight inputs ->
  resolveSection inputs
  = Some (sectionWidth inputs / 1000 * JS.pow3 (sectionHeight inputs / 1000) / 12
          - (sectionWidth inputs / 1000 - webThickness inputs / 1000)
            * JS.pow3 (sectionHeight inputs / 1000 - 2 * (flangeThickness inputs / 1000)) / 12,
          sectionHeight inputs / 1000 / 2).
Proof.
  intros Hcs Hb Hh.
  unfold resolveSection. rewrite Hcs.
  assert (Hg : JS.leb (sectionWidth inputs) 0 || JS.leb (sectionHeight inputs) 0 = false)
    by (rewrite orb_false_iff, !leb_false; tauto).
  now rewrite Hg.
Qed.


Lemma hollow_section_bounds (inputs : Inputs) :
  crossSection inputs = i_beam ->
  0 < webThickness inputs -> webThickness inputs < sectionWidth inputs ->
  0 < flangeThickness inputs -> 2 * flangeThickness inputs < sectionHeight inputs ->
  exists I_m4 c_m,
    resolveSection inputs = Some (I_m4, c_m) /\
    0 < I_m4 /\
    I_m4 < rectangleInertia (sectionWidth inputs / 1000) (sectionHeight inputs / 1000) /\
    c_m == sectionHeight inputs / 2000.
Proof.
  intros Hcs Hw Hwb Hf Hfh.
  assert (Hb : 0 < sectionWidth inputs) by lra.
  assert (Hh : 0 < sectionHeight inputs) by lra.
  pose proof (resolveSection_ibeam inputs Hcs Hb Hh) as Hres.
  eexists. eexists. split; [exact Hres|].
  clear Hres.
  generalize dependent (sectionWidth inputs). intros b.
  generalize dependent (sectionHeight inputs). intros h.
  generalize dependent (webThickness inputs). intros tw.
  generalize dependent (flangeThickness inputs). intros tf. intros.
  assert (E1 : b / 1000 == b * (1 # 1000)) by field.
  assert (E2 : h / 1000 == h * (1 # 1000)) by field.
  assert (E3 : tw / 1000 == tw * (1 # 1000)) by field.
  assert (E4 : tf / 1000 == tf * (1 # 1000)) by field.
  assert (G1 : 0 < b / 1000 - tw / 1000) by (rewrite E1, E3; lra).
  assert (G2 : b / 1000 - tw / 1000 < b / 1000) by (rewrite E1, E3; lra).
  assert (G3 : 0 < h / 1000 - 2 * (tf / 1000)) by (rewrite E2, E4; lra).
  assert (G4 : h / 1000 - 2 * (tf / 1000) < h / 1000) by (rewrite E2, E4; lra).
  destruct (hollow_lt_full _ _ _ _ G1 G2 G3 G4) as [Hpos Hlt].
  unfold rectangleInertia, JS.pow3.
  clear G1 G2 G3 G4 E1 E2 E3 E4.
  generalize dependent ((b / 1000 - tw / 1000) * (h / 1000 - 2 * (tf / 1000)) ^ 3).
  generalize dependent (b / 1000 * (h / 1000) ^ 3).
  intros full hollow Hpos Hlt.
  assert (F1 : full / 12 - hollow / 12 == (full - hollow) * (1 # 12)) by field.
  assert (F2 : full / 12 == full * (1 # 12)) by field.
  split; [rewrite F1; lra|].
  split; [rewrite F1, F2; lra|].
  field.
Qed.

(** X5: an I-beam with 0 < tw < b, tf > 0 and 2*tf < h resolves to a second
    moment of area strictly between 0 and that of the full b x h rectangle,
    with c = h/2 in metres. *)
Theorem consistent_ibeam_inertia_bounds (inputs : Inputs) :
  crossSection inputs = i_beam ->
  0 < webThickness inputs -> webThickness inputs < sectionWidth inputs ->
  0 < flangeThickness inputs -> 2 * flangeThickness inputs < sectionHeight inputs ->
  exists I_m4 c_m,
    resolveSection inputs = Some (I_m4, c_m) /\
    0 < I_m4 /\
    I_m4 < rectangleInertia (sectionWidth inputs / 1000) (sectionHeight inputs / 1000) /\
    c_m == sectionHeight inputs / 2000.
Proof. exact (hollow_section_bounds inputs). Qed.

Lemma consistent_ibeam_inertia_bounds_witness :
  exists I_m4 c_m,
    resolveSection plainIBeam = Some (I_m4, c_m) /\
    0 < I_m4 /\
    I_m4 < rectangleInertia (sectionWidth plainIBeam / 1000) (sectionHeight plainIBeam / 1000) /\
    c_m == sectionHeight plainIBeam / 2000.
Proof.
  apply (consistent_ibeam_inertia_bounds plainIBeam); reflexivity.
Defined.

(** ** Standard sizes *)

Lemma I_BEAM_SIZES_consistent :
  Forall (fun sz => 0 < IBeamSize.webThickness sz /\
                    IBeamSize.webThickness sz < IBeamSize.width sz /\
                    0 < IBeamSize.flangeThickness sz /\
                    2 * IBeamSize.flangeThickness sz < IBeamSize.height sz)
         I_BEAM_SIZES.
Proof.
  unfold I_BEAM_SIZES. repeat constructor.
Qed.

Lemma sameInputsJSON_section (p q : Inputs) :
  sameInputsJSON p q = true ->
  standardSize p = standardSize q /\
  sectionWidth p == sectionWidth q /\ sectionHeight p == sectionHeight q /\
  flangeThickness p == flangeThickness q /\ webThickness p == webThickness q.
Proof.
  unfold sameInputsJSON. rewrite !andb_true_iff, !Qeq_bool_iff, String.eqb_eq. tauto.
Qed.

Lemma setBeamInputs_current (f : Inputs -> Inputs) (s : UndoRedo.t Inputs) (cur : Inputs) :
  UndoRedo.inputs Inputs s = Some cur ->
  UndoRedo.inputs Inputs (setBeamInputs (inr f) s)
  = Some (if sameInputsJSON (f cur) cur then cur else f cur).
Proof.
  intro Hcur. unfold setBeamInputs.
  destruct (sameInputsJSON (f cur) cur) eqn:Hs.
  - unfold UndoRedo.setInputs. rewrite Hcur. cbv zeta. rewrite Hs. exact Hcur.
  - rewrite (setInputs_changed sameInputsJSON (inr f) s cur Hcur Hs).
    assert (Hlt : (UndoRedo.currentIndex s < List.length (UndoRedo.inputHistory s))%nat)
      by (apply inputs_defined; eauto).
    unfold UndoRedo.inputs. cbn [UndoRedo.inputHistory UndoRedo.currentIndex].
    rewrite nth_error_app2 by (rewrite length_firstn; lia).
    rewrite length_firstn.
    replace (UndoRedo.currentIndex s + 1
             - Nat.min (UndoRedo.currentIndex s + 1) (List.length (UndoRedo.inputHistory s)))%nat
      with 0%nat by lia.
    reflexivity.
Qed.

(** X6: choosing a standard I-beam size while the I-beam section is selected
    leaves span, load, supports and material alone and makes current a
    section with the chosen name and dimensions; that section is consistent
    (0 < tw < b, 0 < 2*tf < h) and resolves to a positive second moment of
    area. *)
Theorem standard_ibeam_selection (name : string) (s : UndoRedo.t Inputs)
  (cur : Inputs) (size : IBeamSize.t) :
  UndoRedo.inputs Inputs s = Some cur ->
  crossSection cur = i_beam ->
  find (fun sz => String.eqb (IBeamSize.name sz) name) I_BEAM_SIZES = Some size ->
  exists new,
    UndoRedo.inputs Inputs (handleStandardSizeChange name s) = Some new /\
    standardSize new = name /\
    sectionWidth new == IBeamSize.width size /\
    sectionHeight new == IBeamSize.height size /\
    webThickness new == IBeamSize.webThickness size /\
    flangeThickness new == IBeamSize.flangeThickness size /\
    (beamLength new = beamLength cur /\ load new = load cur /\
     loadPosition new = loadPosition cur /\ beamType new = beamType cur /\
     loadType new = loadType cur /\ crossSection new = i_beam /\
     modulusOfElasticity new = modulusOfElasticity cur) /\
    (0 < webThickness new /\ webThickness new < sectionWidth new /\
     0 < flangeThickness new /\ 2 * flangeThickness new < sectionHeight new) /\
    exists I_m4 c_m, resolveSection new = Some (I_m4, c_m) /\ 0 < I_m4.
Proof.
  intros Hcur Hcs Hfind.
  destruct (find_some _ _ Hfind) as [Hin Hname].
  apply String.eqb_eq in Hname.
  pose proof (proj1 (Forall_forall _ _) I_BEAM_SIZES_consistent size Hin)
    as (Hw & Hwb & Hf & Hfh).
  assert (Hcustom : String.eqb name "Custom" = false).
  { destruct (String.eqb name "Custom") eqn:Hc; [|reflexivity].
    apply String.eqb_eq in Hc. subst name. rewrite Hc in Hfind. discriminate. }
  unfold handleStandardSizeChange. rewrite Hcustom, Hcur, Hcs, Hfind.
  rewrite (setBeamInputs_current (withIBeamSize size) s cur Hcur).
  assert (Hnew : exists new,
            (if sameInputsJSON (withIBeamSize size cur) cur then cur else withIBeamSize size cur)
            = new /\
            standardSize new = name /\
            sectionWidth new == IBeamSize.width size /\
            sectionHeight new == IBeamSize.height size /\
            webThickness new == IBeamSize.webThickness size /\
            flangeThickness new == IBeamSize.flangeThickness size /\
            (beamLength new = beamLength cur /\ load new = load cur /\
             loadPosition new = loadPosition cur /\ beamType new = beamType cur /\
             loadType new = loadType cur /\ crossSection new = i_beam /\
             modulusOfElasticity new = modulusOfElasticity cur)).
  { destruct (sameInputsJSON (withIBeamSize size cur) cur) eqn:Hs.
    - exists cur. split; [reflexivity|].
      destruct (sameInputsJSON_section _ _ Hs) as (H1 & H2 & H3 & H4 & H5).
      cbn in H1, H2, H3, H4, H5.
      split; [congruence|].
      split; [now rewrite <- H2|]. split; [now rewrite <- H3|].
      split; [now rewrite <- H5|]. split; [now rewrite <- H4|].
      repeat split; auto.
    - exists (withIBeamSize size cur). split; [reflexivity|].
      cbn. repeat split; auto; reflexivity. }
  destruct Hnew as (new & -> & Hn & Hb & Hh & Htw & Htf & Hrest).
  exists new. split; [reflexivity|].
  assert (Hgeo : 0 < webThickness new /\ webThickness new < sectionWidth new /\
                 0 < flangeThickness new /\ 2 * flangeThickness new < sectionHeight new).
  { rewrite Hb, Hh, Htw, Htf. auto. }
  repeat (split; [assumption|]).
  destruct Hgeo as (G1 & G2 & G3 & G4).
  destruct Hrest as (_ & _ & _ & _ & _ & Hcs' & _).
  destruct (hollow_section_bounds new Hcs' G1 G2 G3 G4) as (I_m4 & c_m & Hres & Hpos & _).
  exists I_m4, c_m. split; assumption.
Qed.

Lemma standard_ibeam_selection_witness :
  exists new,
    UndoRedo.inputs Inputs
      (handleStandardSizeChange "IPE 120"
         (UndoRedo.mounted Inputs plainIBeam)) = Some new /\
    standardSize new = "IPE 120"%string /\
    sectionWidth new == 64 /\ sectionHeight new == 120 /\
    webThickness new == 4.4 /\ flangeThickness new == 6.3 /\
    exists I_m4 c_m, resolveSection new = Some (I_m4, c_m) /\ 0 < I_m4.
Proof.
  destruct (standard_ibeam_selection "IPE 120" (UndoRedo.mounted Inputs plainIBeam)
              plainIBeam _ eq_refl eq_refl eq_refl)
    as (new & H1 & H2 & H3 & H4 & H5 & H6 & _ & _ & H7).
  exists new. repeat (split; [assumption|]). exact H7.
Defined.

(** ** Peaks and diagram *)

Lemma abs_le_of_bounds (m B : Q) : - B <= m -> m <= B -> Qabs m <= B.
Proof. intros H1 H2. apply Qabs_Qle_condition. split; assumption. Qed.

Lemma mult_nonneg_le (k u v : Q) : 0 <= k -> u <= v -> k * u <= k * v.
Proof.
  intros Hk Huv. rewrite !(Qmult_comm k). apply Qmult_le_compat_r; assumption.
Qed.

(** Simply supported, point load: with k = P/L the moment is k*b*x left of
    the load and k*a*(L - x) right of it. *)
Lemma ss_point_moment_bounds (Pn l a t : Q) :
  0 < Pn -> 0 < l -> 0 <= a -> a <= l -> 0 <= t -> t <= l ->
  let r1 := Pn * (l - a) / l in
  let peak := Pn * a * (l - a) / l in
  0 <= peak /\
  (t <= a -> 0 <= r1 * t /\ r1 * t <= peak) /\
  (a < t -> 0 <= r1 * t - Pn * (t - a) /\ r1 * t - Pn * (t - a) <= peak).
Proof.
  intros HP Hl Ha Hal Ht Htl. cbv zeta.
  assert (Hl0 : ~ l == 0) by lra.
  set (k := Pn / l).
  assert (Hk : 0 < k) by (apply Qlt_shift_div_l; lra).
  assert (E1 : Pn * (l - a) / l == k * (l - a)) by (unfold k; field; exact Hl0).
  assert (E2 : Pn * a * (l - a) / l == k * (a * (l - a))) by (unfold k; field; exact Hl0).
  assert (E3 : Pn * (l - a) / l * t - Pn * (t - a) == k * (a * (l - t)))
    by (unfold k; field; exact Hl0).
  assert (E4 : Pn * (l - a) / l * t == k * ((l - a) * t)) by (unfold k; field; exact Hl0).
  rewrite E2, E3, E4.
  assert (Hk0 : 0 <= k) by lra.
  assert (Hab : 0 <= a * (l - a)) by (apply Qmult_le_0_compat; lra).
  split; [apply Qmult_le_0_compat; assumption|].
  split.
  - intro Hta.
    assert (H1 : 0 <= (l - a) * t) by (apply Qmult_le_0_compat; lra).
    assert (H2 : (l - a) * t <= a * (l - a)).
    { rewrite (Qmult_comm a). apply mult_nonneg_le; lra. }
    split; [apply Qmult_le_0_compat; assumption | apply mult_nonneg_le; assumption].
  - intro Hat.
    assert (H1 : 0 <= a * (l - t)) by (apply Qmult_le_0_compat; lra).
    assert (H2 : a * (l - t) <= a * (l - a)) by (apply mult_nonneg_le; lra).
    split; [apply Qmult_le_0_compat; assumption | apply mult_nonneg_le; assumption].
Qed.

Lemma ss_point_shear_right (Pn l a : Q) :
  0 < l -> Pn * (l - a) / l - Pn == - (Pn * a / l).
Proof. intro Hl. field. lra. Qed.

(** Simply supported, UDL: 0 <= w*x*(L - x)/2 <= w*L^2/8. *)
Lemma ss_udl_moment_bounds (wN l t : Q) :
  0 < wN -> 0 <= t -> t <= l ->
  0 <= wN * l / 2 * t - wN * t * t / 2 /\
  wN * l / 2 * t - wN * t * t / 2 <= wN * l * l / 8.
Proof.
  intros Hw Ht Htl.
  assert (E1 : wN * l / 2 * t - wN * t * t / 2 == wN * (t * (l - t)) * (1 # 2)) by field.
  assert (E2 : wN * l * l / 8 == wN * (l * l) * (1 # 8)) by field.
  rewrite E1, E2.
  assert (H1 : 0 <= t * (l - t)) by (apply Qmult_le_0_compat; lra).
  assert (H2 : 0 <= wN * (t * (l - t))) by (apply Qmult_le_0_compat; lra).
  split; [lra|].
  assert (Hsq : 0 <= wN * ((l - 2 * t) * (l - 2 * t))).
  { apply Qmult_le_0_compat; [lra|]. generalize (l - 2 * t). intro u. nra. }
  nra.
Qed.

Lemma udl_shear_bounds (wN l t : Q) :
  0 < wN -> 0 <= t -> t <= l ->
  0 <= wN * t /\ wN * t <= wN * l.
Proof.
  intros Hw Ht Htl. split; [apply Qmult_le_0_compat; lra | apply mult_nonneg_le; lra].
Qed.

(** Cantilever, UDL: -w*L^2/2 <= -w*(L - x)^2/2 <= 0. *)
Lemma cantilever_udl_moment_bounds (wN l t : Q) :
  0 < wN -> 0 <= t -> t <= l ->
  - (wN * l * l) / 2 <= - (wN * l * l) / 2 + wN * l * t - wN * t * t / 2 /\
  - (wN * l * l) / 2 + wN * l * t - wN * t * t / 2 <= 0.
Proof.
  intros Hw Ht Htl.
  assert (E1 : - (wN * l * l) / 2 + wN * l * t - wN * t * t / 2
               == - (wN * ((l - t) * (l - t)) * (1 # 2))) by field.
  assert (E2 : - (wN * l * l) / 2 == - (wN * (l * l) * (1 # 2))) by field.
  rewrite E1, E2.
  assert (H1 : 0 <= (l - t) * (l - t)) by (apply Qmult_le_0_compat; lra).
  assert (H2 : (l - t) * (l - t) <= l * l).
  { apply Qle_trans with ((l - t) * l).
    - apply mult_nonneg_le; lra.
    - apply Qmult_le_compat_r; lra. }
  assert (H3 : 0 <= wN * ((l - t) * (l - t))) by (apply Qmult_le_0_compat; lra).
  assert (H4 : wN * ((l - t) * (l - t)) <= wN * (l * l)) by (apply mult_nonneg_le; lra).
  lra.
Qed.

Lemma peaks_bound_every_position (inputs : Inputs) (lc : LoadCase) (I_m4 t : Q) :
  basicGuard inputs = false ->
  solveLoadCase inputs = Some lc ->
  0 <= t -> t <= beamLength inputs ->
  Qabs (moment_Nm (evalAt inputs lc I_m4 t)) <= Qabs (maxMoment_Nm lc) /\
  Qabs (shear_N (evalAt inputs lc I_m4 t)) <= maxShear_N lc.
Proof.
  intros Hg Hlc Ht Htl.
  destruct (proj1 (basicGuard_false inputs) Hg) as (HL & HP & _).
  assert (HPn : 0 < load inputs * 1000) by lra.
  unfold solveLoadCase in Hlc. unfold evalAt.
  destruct (beamType inputs), (loadType inputs).
  - (* simply supported, point load *)
    destruct (positionGuard inputs) eqn:Hpos; [discriminate|].
    apply positionGuard_false in Hpos. destruct Hpos as [Ha Hal].
    injection Hlc as <-.
    cbn [moment_Nm shear_N maxMoment_Nm maxShear_N reactions_N r1 r2].
    unfold P_N, b_len, L_m, a_m.
    destruct (ss_point_moment_bounds (load inputs * 1000) (beamLength inputs)
                (loadPosition inputs) t HPn HL Ha Hal Ht Htl) as (Hpk & Hleft & Hright).
    split.
    + rewrite (Qabs_pos _ Hpk).
      destruct (JS.leb t (loadPosition inputs)) eqn:Hc.
      * apply leb_true in Hc. destruct (Hleft Hc). apply abs_le_of_bounds; lra.
      * apply leb_false in Hc. destruct (Hright Hc). apply abs_le_of_bounds; lra.
    + destruct (JS.ltb t (loadPosition inputs)).
      * apply Q.le_max_l.
      * rewrite (ss_point_shear_right _ _ _ HL), Qabs_opp. apply Q.le_max_r.
  - (* simply supported, UDL *)
    injection Hlc as <-.
    cbn [moment_Nm shear_N maxMoment_Nm maxShear_N reactions_N r1 r2].
    unfold w_Nm, L_m.
    destruct (ss_udl_moment_bounds (load inputs * 1000) (beamLength inputs) t HPn Ht Htl)
      as [Hlo Hhi].
    destruct (udl_shear_bounds (load inputs * 1000) (beamLength inputs) t HPn Ht Htl)
      as [Hs0 Hs1].
    assert (Hpk : 0 <= load inputs * 1000 * beamLength inputs * beamLength inputs / 8) by lra.
    split.
    + rewrite (Qabs_pos _ Hpk). apply abs_le_of_bounds; lra.
    + assert (E : load inputs * 1000 * beamLength inputs / 2
                  == load inputs * 1000 * beamLength inputs * (1 # 2)) by field.
      rewrite E. apply abs_le_of_bounds; lra.
  - (* cantilever, point load *)
    destruct (positionGuard inputs) eqn:Hpos; [discriminate|].
    apply positionGuard_false in Hpos. destruct Hpos as [Ha Hal].
    injection Hlc as <-.
    cbn [moment_Nm shear_N maxMoment_Nm maxShear_N reactions_N r1 r2].
    unfold P_N, a_m.
    assert (Hpa : 0 <= load inputs * 1000 * loadPosition inputs)
      by (apply Qmult_le_0_compat; lra).
    assert (Hneg : - (load inputs * 1000) * loadPosition inputs <= 0) by lra.
    rewrite (Qabs_neg _ Hneg).
    destruct (JS.ltb t (loadPosition inputs)) eqn:Hc.
    + apply ltb_true in Hc.
      assert (Hpt : 0 <= load inputs * 1000 * t) by (apply Qmult_le_0_compat; lra).
      assert (Hpta : load inputs * 1000 * t <= load inputs * 1000 * loadPosition inputs)
        by (apply mult_nonneg_le; lra).
      split; apply abs_le_of_bounds; lra.
    + change (Qabs 0) with 0. split; lra.
  - (* cantilever, UDL *)
    injection Hlc as <-.
    cbn [moment_Nm shear_N maxMoment_Nm maxShear_N reactions_N r1 r2].
    unfold w_Nm, L_m.
    destruct (cantilever_udl_moment_bounds (load inputs * 1000) (beamLength inputs) t
                HPn Ht Htl) as [Hlo Hhi].
    destruct (udl_shear_bounds (load inputs * 1000) (beamLength inputs) t HPn Ht Htl)
      as [Hs0 Hs1].
    assert (Hneg : - (load inputs * 1000 * beamLength inputs * beamLength inputs) / 2 <= 0)
      by lra.
    split.
    + rewrite (Qabs_neg _ Hneg). apply abs_le_of_bounds; lra.
    + apply abs_le_of_bounds; lra.
Qed.

Lemma toFixed2_nonneg (u : Q) : 0 <= u -> 0 <= JS.toFixed2 u.
Proof.
  intro H. rewrite <- toFixed2_0. apply toFixed2_mono; [lra | exact H].
Qed.

Lemma toFixed2_opp (u : Q) : 0 < u -> JS.toFixed2 (- u) == - JS.toFixed2 u.
Proof.
  intro Hu. unfold JS.toFixed2. rewrite Qabs_opp.
  destruct (Qle_bool 1000000000000000000000 (Qabs u)); [reflexivity|].
  assert (H1 : JS.ltb (- u) 0 = true) by (apply ltb_true; lra).
  assert (H2 : JS.ltb u 0 = false) by (apply ltb_false; lra).
  rewrite H1, H2.
  assert (E : JS.hundredths (- - u) = JS.hundredths u).
  { unfold JS.hundredths. apply Qfloor_comp. ring. }
  rewrite E. reflexivity.
Qed.

(** Rounding commutes with the absolute value. *)
Lemma toFixed2_abs (u : Q) : Qabs (JS.toFixed2 u) == JS.toFixed2 (Qabs u).
Proof.
  destruct (Qlt_le_dec u 0) as [Hneg|Hpos].
  - assert (Hu : 0 < - u) by lra.
    assert (E : u == - - u) by ring.
    rewrite E at 1. rewrite (toFixed2_opp (- u) Hu), Qabs_opp.
    rewrite (Qabs_neg u) by lra.
    apply Qabs_pos. apply toFixed2_nonneg. lra.
  - rewrite (Qabs_pos u Hpos). apply Qabs_pos. now apply toFixed2_nonneg.
Qed.

Lemma abs_div1000 (m : Q) : Qabs (m / 1000) == Qabs m / 1000.
Proof.
  unfold Qdiv. rewrite Qabs_Qmult. reflexivity.
Qed.

Lemma position_in_span (inputs : Inputs) (i : nat) :
  0 < beamLength inputs -> (i <= 100)%nat ->
  0 <= position inputs i /\ position inputs i <= beamLength inputs.
Proof.
  intros HL Hi. split; [now apply position_nonneg|].
  rewrite <- (position_100 inputs). now apply position_le.
Qed.

(** ** End conditions *)

Lemma toFixed2_zero (u : Q) : u == 0 -> JS.toFixed2 u == 0.
Proof. intro H. rewrite H. apply toFixed2_0. Qed.

Lemma E_nonzero (inputs : Inputs) : 0 < modulusOfElasticity inputs -> ~ E inputs == 0.
Proof. intro HE. unfold E. lra. Qed.

Ltac field_nz := field; repeat split; assumption.

(** ** Symmetry under a uniformly distributed load *)

Lemma toFixed2_odd (u : Q) : JS.toFixed2 (- u) == - JS.toFixed2 u.
Proof.
  destruct (Q_dec u 0) as [[Hneg|Hpos]|Hz].
  - assert (Hu : 0 < - u) by lra.
    pose proof (toFixed2_opp (- u) Hu) as H.
    assert (E1 : - - u == u) by ring. rewrite E1 in H. rewrite H.
    symmetry. apply Qopp_involutive.
  - now apply toFixed2_opp.
  - rewrite Hz. change (- 0) with 0. rewrite toFixed2_0. reflexivity.
Qed.

Lemma position_mirror (inputs : Inputs) (i : nat) :
  (i <= 100)%nat ->
  position inputs (100 - i) == beamLength inputs - position inputs i.
Proof.
  intro Hi. unfold position, L_m.
  rewrite Nat2Z.inj_sub by exact Hi. unfold Z.sub.
  rewrite inject_Z_plus, inject_Z_opp.
  change (inject_Z (Z.of_nat 100)) with 100. field.
Qed.

(** Under a UDL the exact samples of a simply supported beam mirror each
    other about mid-span. *)
Lemma udl_mirror_exact (inputs : Inputs) :
  accepted inputs = true ->
  beamType inputs = simply_supported ->
  loadType inputs = udl ->
  exists r, runCalculate inputs = Computed r /\
    forall i, (i <= 100)%nat ->
      moment (nth (100 - i) (diagramData r) noPoint)
      == moment (nth i (diagramData r) noPoint) /\
      shear (nth (100 - i) (diagramData r) noPoint)
      == - shear (nth i (diagramData r) noPoint) /\
      deflection (nth (100 - i) (diagramData r) noPoint)
      == deflection (nth i (diagramData r) noPoint).
Proof.
  intros Hacc Hbt Hlt.
  destruct (accepted_inv inputs Hacc) as (I_m4 & c_m & lc & Hg & _ & Hlc & Hrun).
  exists (aggregate inputs lc I_m4 c_m). split; [exact Hrun|]. clear Hrun Hacc.
  intros i Hi. cbn [aggregate diagramData].
  rewrite !sampleDiagram_nth by lia. cbn [moment shear deflection diagramPoint].
  pose proof (position_mirror inputs i Hi) as Hmir.
  revert Hmir. generalize (position inputs (100 - i)) (position inputs i).
  intros t' t Hmir.
  unfold solveLoadCase in Hlc. rewrite Hbt, Hlt in Hlc. injection Hlc as <-.
  unfold evalAt. rewrite Hbt, Hlt.
  cbn [moment_Nm shear_N deflection_m reactions_N r1 r2].
  unfold w_Nm, L_m.
  split; [|split].
  - apply toFixed2_Proper. rewrite Hmir. field.
  - rewrite <- toFixed2_odd. apply toFixed2_Proper. rewrite Hmir. field.
  - rewrite Hmir. unfold Qdiv. ring.
Qed.

(** ** Peak selection *)

Lemma fold_max_upper (t : list Q) (h : Q) :
  h <= fold_left Qmax t h /\ forall y, In y t -> y <= fold_left Qmax t h.
Proof.
  revert h. induction t as [|z t IH]; intro h; cbn [fold_left].
  - split; [apply Qle_refl | intros y []].
  - destruct (IH (Qmax h z)) as [H1 H2]. split.
    + eapply Qle_trans; [apply Q.le_max_l | exact H1].
    + intros y [<-|Hy]; [|now apply H2].
      eapply Qle_trans; [apply Q.le_max_r | exact H1].
Qed.

Lemma fold_max_attained (t : list Q) (h : Q) :
  exists y, In y (h :: t) /\ fold_left Qmax t h == y.
Proof.
  revert h. induction t as [|z t IH]; intro h; cbn [fold_left].
  - exists h. split; [now left | reflexivity].
  - destruct (IH (Qmax h z)) as (y & [Hy|Hy] & Heq).
    + subst y. destruct (Q.max_dec h z) as [Hm|Hm].
      * exists h. split; [now left | now rewrite Heq].
      * exists z. split; [right; now left | now rewrite Heq].
    + exists y. split; [right; now right | exact Heq].
Qed.

(** [reduceMax] returns a listed point whose key no other point exceeds. *)
Lemma reduce_step_spec (key : DiagramPoint -> Q) (l : list DiagramPoint) (acc : DiagramPoint) :
  let res := fold_left (fun max p => if JS.ltb (key max) (key p) then p else max) l acc in
  In res (acc :: l) /\ key acc <= key res /\ forall q, In q l -> key q <= key res.
Proof.
  revert acc. induction l as [|p l IH]; intro acc; cbn [fold_left]; cbv zeta.
  - split; [now left|]. split; [apply Qle_refl | intros q []].
  - destruct (JS.ltb (key acc) (key p)) eqn:Hc.
    + apply ltb_true in Hc. destruct (IH p) as (Hin & Hp & Hall).
      split; [right; exact Hin|].
      split; [lra|].
      intros q [<-|Hq]; [exact Hp | now apply Hall].
    + apply ltb_false in Hc. destruct (IH acc) as (Hin & Hacc & Hall).
      split; [destruct Hin as [Hin|Hin]; [now left | right; now right]|].
      split; [exact Hacc|].
      intros q [<-|Hq]; [lra | now apply Hall].
Qed.

Lemma reduceMax_spec (key : DiagramPoint -> Q) (l : list DiagramPoint) :
  l <> [] ->
  exists p, reduceMax key l = Some p /\ In p l /\ forall q, In q l -> key q <= key p.
Proof.
  intro Hne. destruct l as [|first rest]; [congruence|].
  unfold reduceMax. eexists. split; [reflexivity|].
  destruct (reduce_step_spec key (first :: rest) first) as (Hin & _ & Hall).
  cbv zeta in Hin, Hall.
  split; [|exact Hall].
  destruct Hin as [Hin|Hin]; [|exact Hin]. rewrite <- Hin. now left.
Qed.

Lemma mathMax_spec (l : list Q) :
  l <> [] ->
  (forall y, In y l -> y <= JS.mathMax l) /\ exists y, In y l /\ JS.mathMax l == y.
Proof.
  intro Hne. destruct l as [|h t]; [congruence|]. unfold JS.mathMax.
  destruct (fold_max_upper t h) as [H1 H2]. split.
  - intros y [<-|Hy]; [exact H1 | now apply H2].
  - apply fold_max_attained.
Qed.

Lemma sampleDiagram_nonempty (inputs : Inputs) (lc : LoadCase) (I_m4 : Q) :
  sampleDiagram inputs lc I_m4 <> [].
Proof.
  intro H. pose proof (sampleDiagram_length inputs lc I_m4) as Hl.
  rewrite H in Hl. discriminate.
Qed.

Lemma sample_moment_within_peak (inputs : Inputs) (lc : LoadCase) (I_m4 : Q) (i : nat) :
  basicGuard inputs = false ->
  solveLoadCase inputs = Some lc ->
  (i <= 100)%nat ->
  Qabs (moment (diagramPoint inputs lc I_m4 i)) <= JS.toFixed2 (Qabs (maxMoment_Nm lc / 1000)).
Proof.
  intros Hg Hlc Hi.
  destruct (proj1 (basicGuard_false inputs) Hg) as (HL & _ & _).
  destruct (position_in_span inputs i HL Hi) as [Ht Htl].
  destruct (peaks_bound_every_position inputs lc I_m4 (position inputs i) Hg Hlc Ht Htl)
    as [Hm _].
  cbn [moment diagramPoint]. rewrite toFixed2_abs.
  apply toFixed2_mono; [apply Qabs_nonneg|].
  rewrite !abs_div1000. apply Qmult_le_compat_r; [exact Hm | discriminate].
Qed.

(** The sample at which the closed-form peak sits: the fixed end of a
    cantilever, mid-span under a UDL. *)
Lemma peak_sample (inputs : Inputs) (lc : LoadCase) (I_m4 : Q) :
  basicGuard inputs = false ->
  solveLoadCase inputs = Some lc ->
  beamType inputs = cantilever \/ loadType inputs = udl ->
  exists i, (i <= 100)%nat /\
    moment (diagramPoint inputs lc I_m4 i) == JS.toFixed2 (maxMoment_Nm lc / 1000).
Proof.
  intros Hg Hlc Hcase.
  pose proof (position_0 inputs) as H0. pose proof (position_50 inputs) as H50.
  unfold solveLoadCase in Hlc. cbn [moment diagramPoint]. unfold evalAt.
  destruct (beamType inputs), (loadType inputs).
  - destruct Hcase; discriminate.
  - injection Hlc as <-. exists 50%nat. split; [lia|].
    cbn [moment_Nm maxMoment_Nm reactions_N r1]. unfold w_Nm, L_m.
    apply toFixed2_Proper. rewrite H50. field.
  - destruct (positionGuard inputs) eqn:Hpos; [discriminate|].
    apply positionGuard_false in Hpos. destruct Hpos as [Ha _].
    injection Hlc as <-. exists 0%nat. split; [lia|].
    cbn [moment_Nm maxMoment_Nm reactions_N r1 r2]. unfold P_N, a_m.
    apply toFixed2_Proper.
    destruct (JS.ltb (position inputs 0) (loadPosition inputs)) eqn:Hc.
    + rewrite H0. field.
    + apply ltb_false in Hc.
      assert (Ha0 : loadPosition inputs == 0) by lra.
      rewrite Ha0. field.
  - injection Hlc as <-. exists 0%nat. split; [lia|].
    cbn [moment_Nm maxMoment_Nm reactions_N r1 r2]. unfold w_Nm, L_m.
    apply toFixed2_Proper. rewrite H0. field.
Qed.

(** ** Earthwork volumes *)

Lemma product_positive_iff (u v : Q) :
  0 < u * v <-> (0 < u /\ 0 < v) \/ (u < 0 /\ v < 0).
Proof.
  split.
  - intro H.
    destruct (Q_dec u 0) as [[Hu|Hu]|Hu].
    + right. split; [exact Hu|].
      destruct (Qlt_le_dec v 0) as [Hv|Hv]; [exact Hv|]. exfalso.
      assert (H1 : 0 <= (- u) * v) by (apply Qmult_le_0_compat; lra).
      assert (E : (- u) * v == - (u * v)) by ring. rewrite E in H1. lra.
    + left. split; [exact Hu|].
      destruct (Qlt_le_dec 0 v) as [Hv|Hv]; [exact Hv|]. exfalso.
      assert (H1 : 0 <= u * (- v)) by (apply Qmult_le_0_compat; lra).
      assert (E : u * (- v) == - (u * v)) by ring. rewrite E in H1. lra.
    + rewrite Hu in H. assert (E : 0 * v == 0) by ring. rewrite E in H. lra.
  - intros [[Hu Hv]|[Hu Hv]].
    + now apply Qmult_lt_0_compat.
    + assert (E : u * v == (- u) * (- v)) by ring. rewrite E.
      apply Qmult_lt_0_compat; lra.
Qed.

(** X12: the earthwork estimate exists exactly when length times width is
    positive, that is when both are positive or both are negative; in every
    other case the result is cleared. *)
Theorem earthwork_result_iff_same_sign (inputs : Earthwork.Inputs) :
  (exists r, Earthwork.volumes inputs = Some r)
  <-> (0 < Earthwork.areaLength inputs /\ 0 < Earthwork.areaWidth inputs)
      \/ (Earthwork.areaLength inputs < 0 /\ Earthwork.areaWidth inputs < 0).
Proof.
  rewrite <- product_positive_iff. unfold Earthwork.volumes. cbv zeta.
  destruct (JS.leb (Earthwork.areaLength inputs * Earthwork.areaWidth inputs) 0) eqn:Hc.
  - apply leb_true in Hc. split; [intros [r Hr]; discriminate | intro H; lra].
  - apply leb_false in Hc. split; [intros _; exact Hc | intros _; eexists; reflexivity].
Qed.

(** X13: when the estimate exists, the net volume is area * (cut - fill);
    it is labelled a surplus exactly when the cut depth exceeds the fill
    depth, and a balanced site (cut = fill) is labelled
    "Deficit (requires import)" while drawn in the accent colour. *)
Theorem earthwork_net_volume (inputs : Earthwork.Inputs) :
  0 < Earthwork.areaLength inputs * Earthwork.areaWidth inputs ->
  exists r, Earthwork.volumes inputs = Some r /\
    Earthwork.netVolume r
    == Earthwork.areaLength inputs * Earthwork.areaWidth inputs
       * (Earthwork.avgCutDepth inputs - Earthwork.avgFillDepth inputs) /\
    (Earthwork.netLabel r = "Surplus (requires removal)"%string
     <-> Earthwork.avgFillDepth inputs < Earthwork.avgCutDepth inputs) /\
    (Earthwork.avgCutDepth inputs == Earthwork.avgFillDepth inputs ->
     Earthwork.netLabel r = "Deficit (requires import)"%string /\
     Earthwork.netColour r = "text-accent"%string).
Proof.
  intro Harea. unfold Earthwork.volumes. cbv zeta.
  assert (Hc : JS.leb (Earthwork.areaLength inputs * Earthwork.areaWidth inputs) 0 = false)
    by (apply leb_false; exact Harea).
  rewrite Hc. eexists. split; [reflexivity|].
  unfold Earthwork.netLabel, Earthwork.netColour. cbn [Earthwork.netVolume].
  set (area := Earthwork.areaLength inputs * Earthwork.areaWidth inputs) in *.
  set (cut := Earthwork.avgCutDepth inputs). set (fill := Earthwork.avgFillDepth inputs).
  assert (E : area * cut - area * fill == area * (cut - fill)) by ring.
  split; [exact E|].
  assert (Hsign : 0 < area * cut - area * fill <-> fill < cut).
  { rewrite E. split.
    - intro H. apply product_positive_iff in H. destruct H as [[_ H]|[H _]]; lra.
    - intro H. apply Qmult_lt_0_compat; lra. }
  split.
  - destruct (JS.ltb 0 (area * cut - area * fill)) eqn:Hl.
    + apply ltb_true in Hl. split; [intros _; now apply Hsign | reflexivity].
    + apply ltb_false in Hl. split; [discriminate|].
      intro H. apply Hsign in H. lra.
  - intro Heq.
    assert (Hz : area * cut - area * fill == 0) by (rewrite E, Heq; ring).
    assert (H1 : JS.ltb 0 (area * cut - area * fill) = false) by (apply ltb_false; lra).
    assert (H2 : JS.leb 0 (area * cut - area * fill) = true) by (apply leb_true; lra).
    rewrite H1, H2. split; reflexivity.
Qed.

Lemma earthwork_net_volume_witness :
  exists r, Earthwork.volumes Earthwork.initialInputs = Some r /\
    Earthwork.netVolume r == 300 /\
    Earthwork.netLabel r = "Surplus (requires removal)"%string.
Proof.
  destruct (earthwork_net_volume Earthwork.initialInputs eq_refl) as (r & Hr & Hnet & Hlab & _).
  exists r. split; [exact Hr|]. split; [rewrite Hnet; reflexivity|].
  apply Hlab. reflexivity.
Defined.

(** ** Calculation history timeline *)

Lemma lookup_setModule_same (h : App.HistoryState) (k : App.CalculatorModuleKey)
  (v : list App.HistoryEntry) :
  App.lookup (App.setModule h k v) k = Some v.
Proof.
  induction h as [|[k' v'] rest IH]; cbn [App.setModule App.lookup].
  - destruct (App.key_eq_dec k k); [reflexivity | congruence].
  - destruct (App.key_eq_dec k' k) as [Hk|Hk]; cbn [App.lookup].
    + destruct (App.key_eq_dec k' k); [reflexivity | congruence].
    + destruct (App.key_eq_dec k' k); [congruence | exact IH].
Qed.

Lemma lookup_setModule_other (h : App.HistoryState) (k k' : App.CalculatorModuleKey)
  (v : list App.HistoryEntry) :
  k' <> k -> App.lookup (App.setModule h k v) k' = App.lookup h k'.
Proof.
  intro Hne. induction h as [|[k0 v0] rest IH]; cbn [App.setModule App.lookup].
  - destruct (App.key_eq_dec k k'); [congruence | reflexivity].
  - destruct (App.key_eq_dec k0 k) as [Hk|Hk]; cbn [App.lookup].
    + destruct (App.key_eq_dec k0 k'); [congruence | reflexivity].
    + destruct (App.key_eq_dec k0 k'); [reflexivity | exact IH].
Qed.

(** Writing back what a key already holds changes nothing. *)
Lemma setModule_same_value (h : App.HistoryState) (k : App.CalculatorModuleKey)
  (v : list App.HistoryEntry) :
  App.lookup h k = Some v -> App.setModule h k v = h.
Proof.
  induction h as [|[k' v'] rest IH]; cbn [App.setModule App.lookup]; [discriminate|].
  destruct (App.key_eq_dec k' k); [intros [= ->]; reflexivity|].
  intro H. now rewrite IH.
Qed.

Lemma setModule_fresh_key (h : App.HistoryState) (k : App.CalculatorModuleKey)
  (v : list App.HistoryEntry) :
  App.lookup h k = None -> App.setModule h k v <> h.
Proof.
  intros Hnone Heq.
  pose proof (lookup_setModule_same h k v) as H. rewrite Heq, Hnone in H. discriminate.
Qed.

Lemma present_setHistoryWithUndo (u : App.HistoryState -> App.HistoryState) (t : App.Timeline) :
  App.present (App.setHistoryWithUndo u t) = u (App.present t).
Proof.
  unfold App.setHistoryWithUndo. cbv zeta.
  destruct (App.HistoryState_eq_dec (u (App.present t)) (App.present t)) as [He|He];
    [now rewrite He | reflexivity].
Qed.

Lemma setHistoryWithUndo_unchanged (u : App.HistoryState -> App.HistoryState) (t : App.Timeline) :
  u (App.present t) = App.present t -> App.setHistoryWithUndo u t = t.
Proof.
  intro He. unfold App.setHistoryWithUndo. cbv zeta.
  destruct (App.HistoryState_eq_dec (u (App.present t)) (App.present t)); [reflexivity | congruence].
Qed.

Lemma setHistoryWithUndo_changed (u : App.HistoryState -> App.HistoryState) (t : App.Timeline) :
  u (App.present t) <> App.present t ->
  App.setHistoryWithUndo u t
  = {| App.past := App.lastTwenty (App.past t ++ [App.present t]);
       App.present := u (App.present t);
       App.future := [] |}.
Proof.
  intro He. unfold App.setHistoryWithUndo. cbv zeta.
  destruct (App.HistoryState_eq_dec (u (App.present t)) (App.present t)); [congruence | reflexivity].
Qed.

Lemma lastTwenty_length {A : Type} (l : list A) : (List.length (App.lastTwenty l) <= 20)%nat.
Proof. unfold App.lastTwenty. rewrite length_skipn. lia. Qed.

Lemma lastTwenty_snoc {A : Type} (l : list A) (a : A) :
  exists l', App.lastTwenty (l ++ [a]) = l' ++ [a].
Proof.
  unfold App.lastTwenty. rewrite length_app. cbn [List.length].
  exists (skipn (List.length l + 1 - 20) l).
  rewrite skipn_app.
  replace (List.length l + 1 - 20 - List.length l)%nat with 0%nat by lia.
  reflexivity.
Qed.

Lemma undo_after_snoc (p : list App.HistoryState) (a cur : App.HistoryState)
  (f : list App.HistoryState) :
  App.undoHistoryAction {| App.past := p ++ [a]; App.present := cur; App.future := f |}
  = {| App.past := p; App.present := a; App.future := cur :: f |}.
Proof.
  unfold App.undoHistoryAction. cbn [App.past App.present App.future].
  destruct (p ++ [a]) eqn:Hpa; [destruct p; discriminate|]. rewrite <- Hpa.
  rewrite length_app. cbn [List.length].
  replace (List.length p + 1 - 1)%nat with (List.length p) by lia.
  rewrite nth_error_app2 by lia. rewrite Nat.sub_diag. cbn [nth_error].
  rewrite firstn_app, Nat.sub_diag, firstn_all. cbn [firstn]. now rewrite app_nil_r.
Qed.

(** X14: the undo depth stays bounded: if past and future together hold at
    most 20 states, they still do after any recorded change, undo or redo
    -- so the past alone never exceeds 20 states. *)
Theorem history_undo_depth_bounded (u : App.HistoryState -> App.HistoryState)
  (t : App.Timeline) :
  (List.length (App.past t) + List.length (App.future t) <= 20)%nat ->
  (List.length (App.past (App.setHistoryWithUndo u t))
   + List.length (App.future (App.setHistoryWithUndo u t)) <= 20)%nat /\
  (List.length (App.past (App.undoHistoryAction t))
   + List.length (App.future (App.undoHistoryAction t)) <= 20)%nat /\
  (List.length (App.past (App.redoHistoryAction t))
   + List.length (App.future (App.redoHistoryAction t)) <= 20)%nat.
Proof.
  intro Hb. split; [|split].
  - unfold App.setHistoryWithUndo. cbv zeta.
    destruct (App.HistoryState_eq_dec (u (App.present t)) (App.present t)); [exact Hb|].
    cbn [App.past App.future List.length].
    pose proof (lastTwenty_length (App.past t ++ [App.present t])). lia.
  - unfold App.undoHistoryAction.
    destruct (App.past t) as [|s0 rest] eqn:Hp; [rewrite Hp; exact Hb|].
    destruct (nth_error (s0 :: rest) (List.length (s0 :: rest) - 1)); [|rewrite Hp; exact Hb].
    cbn [App.past App.future]. rewrite length_firstn. cbn [List.length] in *. lia.
  - unfold App.redoHistoryAction.
    destruct (App.future t) as [|next rest] eqn:Hf; [rewrite Hf; exact Hb|].
    cbn [App.past App.future]. rewrite length_app. cbn [List.length] in *. lia.
Qed.

(** X15: undo and redo of the calculation history are inverse to each
    other: redoing after an undo, or undoing after a redo, gives back the
    timeline as it was. *)
Theorem history_undo_redo_inverse (t : App.Timeline) :
  (App.canUndoHistory t = true -> App.redoHistoryAction (App.undoHistoryAction t) = t) /\
  (App.canRedoHistory t = true -> App.undoHistoryAction (App.redoHistoryAction t) = t).
Proof.
  destruct t as [p cur f]. unfold App.canUndoHistory, App.canRedoHistory.
  cbn [App.past App.future]. split.
  - intro Hu. apply Nat.ltb_lt in Hu.
    destruct (exists_last (l := p)) as (p' & a & ->); [intro Hn; subst p; cbn in Hu; lia|].
    rewrite undo_after_snoc. reflexivity.
  - intro Hr. apply Nat.ltb_lt in Hr.
    destruct f as [|next rest]; [cbn in Hr; lia|].
    unfold App.redoHistoryAction. cbn [App.past App.present App.future].
    apply undo_after_snoc.
Qed.

(** X16: a recorded change can be undone: after an update that changes the
    history, undo is enabled, redo is not, one undo shows the previous
    history again and a redo after it shows the changed one. *)
Theorem history_change_then_undo (u : App.HistoryState -> App.HistoryState) (t : App.Timeline) :
  u (App.present t) <> App.present t ->
  App.canUndoHistory (App.setHistoryWithUndo u t) = true /\
  App.canRedoHistory (App.setHistoryWithUndo u t) = false /\
  App.present (App.undoHistoryAction (App.setHistoryWithUndo u t)) = App.present t /\
  App.redoHistoryAction (App.undoHistoryAction (App.setHistoryWithUndo u t))
  = App.setHistoryWithUndo u t.
Proof.
  intro Hch. rewrite (setHistoryWithUndo_changed u t Hch).
  destruct (lastTwenty_snoc (App.past t) (App.present t)) as [p' Hp']. rewrite Hp'.
  split.
  { unfold App.canUndoHistory. cbn [App.past]. apply Nat.ltb_lt.
    rewrite length_app. cbn [List.length]. lia. }
  split; [reflexivity|].
  rewrite undo_after_snoc. split; reflexivity.
Qed.

Lemma history_undo_depth_bounded_witness :
  (List.length (App.past (App.setHistoryWithUndo
                            (fun h => App.setModule h App.BEAM_LOAD []) (App.start [])))
   + List.length (App.future (App.setHistoryWithUndo
                                (fun h => App.setModule h App.BEAM_LOAD []) (App.start [])))
   <= 20)%nat /\
  (List.length (App.past (App.undoHistoryAction (App.start [])))
   + List.length (App.future (App.undoHistoryAction (App.start []))) <= 20)%nat /\
  (List.length (App.past (App.redoHistoryAction (App.start [])))
   + List.length (App.future (App.redoHistoryAction (App.start []))) <= 20)%nat.
Proof.
  apply (history_undo_depth_bounded (fun h => App.setModule h App.BEAM_LOAD []) (App.start [])).
  simpl. lia.
Defined.

Lemma history_undo_redo_inverse_witness :
  App.redoHistoryAction
    (App.undoHistoryAction {| App.past := [[]]; App.present := [(App.BEAM_LOAD, [])];
                              App.future := [[(App.REBAR, [])]] |})
  = {| App.past := [[]]; App.present := [(App.BEAM_LOAD, [])];
       App.future := [[(App.REBAR, [])]] |} /\
  App.undoHistoryAction
    (App.redoHistoryAction {| App.past := [[]]; App.present := [(App.BEAM_LOAD, [])];
                              App.future := [[(App.REBAR, [])]] |})
  = {| App.past := [[]]; App.present := [(App.BEAM_LOAD, [])];
       App.future := [[(App.REBAR, [])]] |}.
Proof.
  split.
  - apply (proj1 (history_undo_redo_inverse
                    {| App.past := [[]]; App.present := [(App.BEAM_LOAD, [])];
                       App.future := [[(App.REBAR, [])]] |})). reflexivity.
  - apply (proj2 (history_undo_redo_inverse
                    {| App.past := [[]]; App.present := [(App.BEAM_LOAD, [])];
                       App.future := [[(App.REBAR, [])]] |})). reflexivity.
Defined.

Lemma history_change_then_undo_witness :
  App.canUndoHistory
    (App.setHistoryWithUndo (fun h => App.setModule h App.BEAM_LOAD []) (App.start [])) = true /\
  App.canRedoHistory
    (App.setHistoryWithUndo (fun h => App.setModule h App.BEAM_LOAD []) (App.start [])) = false /\
  App.present
    (App.undoHistoryAction
       (App.setHistoryWithUndo (fun h => App.setModule h App.BEAM_LOAD []) (App.start [])))
  = [] /\
  App.redoHistoryAction
    (App.undoHistoryAction
       (App.setHistoryWithUndo (fun h => App.setModule h App.BEAM_LOAD []) (App.start [])))
  = App.setHistoryWithUndo (fun h => App.setModule h App.BEAM_LOAD []) (App.start []).
Proof.
  apply (history_change_then_undo (fun h => App.setModule h App.BEAM_LOAD []) (App.start [])).
  discriminate.
Defined.

(** ** Adding, deleting and clearing entries *)

(** X17: adding an entry whose inputs differ from those of the module's
    latest entry (or to a module without entries) puts it first, keeps at
    most 20 entries, leaves every other module alone, and can be undone. *)
Theorem add_entry_puts_newest_first (k : App.CalculatorModuleKey) (d : App.EntryData)
  (newId now : string) (t : App.Timeline) :
  match App.moduleHistory (App.present t) k with
  | lastEntry :: _ => App.inputs lastEntry <> App.dataInputs d
  | [] => True
  end ->
  let t' := App.addHistoryEntry k d newId now t in
  let newEntry := {| App.id := newId; App.timestamp := now;
                     App.inputs := App.dataInputs d;
                     App.results := App.dataResults d;
                     App.summary := App.dataSummary d |} in
  App.moduleHistory (App.present t') k
  = firstn 20 (newEntry :: App.moduleHistory (App.present t) k) /\
  (List.length (App.moduleHistory (App.present t') k) <= 20)%nat /\
  (forall k', k' <> k -> App.lookup (App.present t') k' = App.lookup (App.present t) k') /\
  App.present (App.undoHistoryAction t') = App.present t.
Proof.
  intro Hdiff. cbv zeta. unfold App.addHistoryEntry.
  match goal with
  | |- context [App.setHistoryWithUndo ?f t] => set (u := f)
  end.
  set (newEntry := {| App.id := newId; App.timestamp := now;
                      App.inputs := App.dataInputs d;
                      App.results := App.dataResults d;
                      App.summary := App.dataSummary d |}).
  set (updated := App.setModule (App.present t) k
                    (firstn 20 (newEntry :: App.moduleHistory (App.present t) k))).
  assert (Hu : u (App.present t) = updated).
  { unfold u. cbv zeta. fold newEntry. fold updated.
    destruct (App.moduleHistory (App.present t) k) as [|lastEntry rest]; [reflexivity|].
    destruct (App.Fields_eq_dec (App.inputs lastEntry) (App.dataInputs d)); [contradiction|].
    reflexivity. }
  assert (Hmod : App.moduleHistory updated k
                 = firstn 20 (newEntry :: App.moduleHistory (App.present t) k)).
  { unfold App.moduleHistory at 1. unfold updated. now rewrite lookup_setModule_same. }
  assert (Hch : updated <> App.present t).
  { intro Heq. rewrite Heq in Hmod.
    destruct (App.moduleHistory (App.present t) k) as [|lastEntry rest];
      cbn [firstn] in Hmod; [discriminate|].
    injection Hmod as Hhd _. apply Hdiff. rewrite Hhd. reflexivity. }
  rewrite present_setHistoryWithUndo, Hu. split; [exact Hmod|].
  split; [rewrite Hmod; rewrite length_firstn; lia|].
  split; [intros k' Hne; unfold updated; now apply lookup_setModule_other|].
  rewrite setHistoryWithUndo_changed by (rewrite Hu; exact Hch).
  destruct (lastTwenty_snoc (App.past t) (App.present t)) as [p' Hp']. rewrite Hp'.
  rewrite undo_after_snoc. reflexivity.
Qed.

Lemma add_entry_puts_newest_first_witness :
  App.moduleHistory
    (App.present (App.addHistoryEntry App.BEAM_LOAD App.sampleEntry "id-1" "now" (App.start [])))
    App.BEAM_LOAD
  = [ {| App.id := "id-1"; App.timestamp := "now";
         App.inputs := App.dataInputs App.sampleEntry;
         App.results := App.dataResults App.sampleEntry;
         App.summary := App.dataSummary App.sampleEntry |} ] /\
  App.present
    (App.undoHistoryAction
       (App.addHistoryEntry App.BEAM_LOAD App.sampleEntry "id-1" "now" (App.start [])))
  = [].
Proof.
  destruct (add_entry_puts_newest_first App.BEAM_LOAD App.sampleEntry "id-1" "now"
              (App.start []) Logic.I) as (H1 & _ & _ & H2).
  split; [exact H1 | exact H2].
Defined.

(** X18: adding an entry whose inputs equal those of the module's latest
    entry changes nothing: no duplicate is stored and no undo step is
    recorded, whatever the new results, id and time are. *)
Theorem add_entry_skips_repeat (k : App.CalculatorModuleKey) (d : App.EntryData)
  (newId now : string) (t : App.Timeline) (lastEntry : App.HistoryEntry)
  (rest : list App.HistoryEntry) :
  App.moduleHistory (App.present t) k = lastEntry :: rest ->
  App.inputs lastEntry = App.dataInputs d ->
  App.addHistoryEntry k d newId now t = t.
Proof.
  intros Hmod Hsame. unfold App.addHistoryEntry.
  apply setHistoryWithUndo_unchanged. cbv zeta. rewrite Hmod.
  destruct (App.Fields_eq_dec (App.inputs lastEntry) (App.dataInputs d)); [reflexivity|].
  contradiction.
Qed.

Lemma add_entry_skips_repeat_witness :
  App.addHistoryEntry App.BEAM_LOAD App.sampleEntry "id-2" "later"
    (App.addHistoryEntry App.BEAM_LOAD App.sampleEntry "id-1" "now" (App.start []))
  = App.addHistoryEntry App.BEAM_LOAD App.sampleEntry "id-1" "now" (App.start []).
Proof.
  eapply (add_entry_skips_repeat App.BEAM_LOAD App.sampleEntry "id-2" "later"
            (App.addHistoryEntry App.BEAM_LOAD App.sampleEntry "id-1" "now" (App.start []))).
  - reflexivity.
  - reflexivity.
Defined.

(** X19: deleting by id removes every entry of the module with that id and
    keeps the others in their order; the other modules are not touched. *)
Theorem delete_entry_removes_id (k : App.CalculatorModuleKey) (entryId : string)
  (t : App.Timeline) :
  let t' := App.deleteHistoryEntry k entryId t in
  App.moduleHistory (App.present t') k
  = filter (fun e => negb (String.eqb (App.id e) entryId))
           (App.moduleHistory (App.present t) k) /\
  (forall e, In e (App.moduleHistory (App.present t') k) <->
             In e (App.moduleHistory (App.present t) k) /\ App.id e <> entryId) /\
  (forall k', k' <> k -> App.lookup (App.present t') k' = App.lookup (App.present t) k').
Proof.
  cbv zeta. unfold App.deleteHistoryEntry. rewrite present_setHistoryWithUndo.
  assert (Hmod : App.moduleHistory
                   (App.setModule (App.present t) k
                      (filter (fun e => negb (String.eqb (App.id e) entryId))
                              (App.moduleHistory (App.present t) k))) k
                 = filter (fun e => negb (String.eqb (App.id e) entryId))
                          (App.moduleHistory (App.present t) k)).
  { unfold App.moduleHistory at 1. now rewrite lookup_setModule_same. }
  split; [exact Hmod|]. split.
  - intro e. rewrite Hmod, filter_In, negb_true_iff.
    split; intros [Hin Hid]; (split; [exact Hin|]).
    + intro Heq. apply String.eqb_eq in Heq. congruence.
    + destruct (String.eqb (App.id e) entryId) eqn:He; [|reflexivity].
      apply String.eqb_eq in He. contradiction.
  - intros k' Hne. now apply lookup_setModule_other.
Qed.

(** X20: on a module that has no history key yet, deleting an entry still
    records an undo step (the key appears with an empty list), whereas
    clearing it leaves the timeline as it is; on a module that has a key,
    deleting an id that no entry carries leaves the timeline as it is. *)
Theorem delete_on_missing_module_records_step (k : App.CalculatorModuleKey)
  (entryId : string) (t : App.Timeline) :
  (App.lookup (App.present t) k = None ->
   App.lookup (App.present (App.deleteHistoryEntry k entryId t)) k = Some [] /\
   App.canUndoHistory (App.deleteHistoryEntry k entryId t) = true /\
   App.clearHistory k t = t) /\
  (forall l, App.lookup (App.present t) k = Some l ->
     (forall e, In e l -> App.id e <> entryId) ->
     App.deleteHistoryEntry k entryId t = t).
Proof.
  split.
  - intro Hnone.
    assert (Hmh : App.moduleHistory (App.present t) k = [])
      by (unfold App.moduleHistory; now rewrite Hnone).
    split.
    { unfold App.deleteHistoryEntry. rewrite present_setHistoryWithUndo, Hmh.
      cbn [filter]. apply lookup_setModule_same. }
    split.
    { unfold App.deleteHistoryEntry.
      rewrite setHistoryWithUndo_changed by (now apply setModule_fresh_key).
      destruct (lastTwenty_snoc (App.past t) (App.present t)) as [p' Hp'].
      unfold App.canUndoHistory. cbn [App.past]. rewrite Hp'.
      apply Nat.ltb_lt. rewrite length_app. cbn [List.length]. lia. }
    unfold App.clearHistory. apply setHistoryWithUndo_unchanged. now rewrite Hnone.
  - intros l Hl Hids. unfold App.deleteHistoryEntry.
    apply setHistoryWithUndo_unchanged.
    assert (Hmh : App.moduleHistory (App.present t) k = l)
      by (unfold App.moduleHistory; now rewrite Hl).
    rewrite Hmh.
    assert (Hf : filter (fun e => negb (String.eqb (App.id e) entryId)) l = l).
    { apply forallb_filter_id. apply forallb_forall. intros e He.
      apply negb_true_iff. destruct (String.eqb (App.id e) entryId) eqn:Hq; [|reflexivity].
      apply String.eqb_eq in Hq. exfalso. exact (Hids e He Hq). }
    rewrite Hf. now apply setModule_same_value.
Qed.

(** X21: clearing a module that has entries empties it, leaves the other
    modules alone and can be undone; clearing a module whose list is
    missing or empty leaves the timeline as it is. *)
Theorem clear_history_empties_module (k : App.CalculatorModuleKey) (t : App.Timeline) :
  (forall e l, App.lookup (App.present t) k = Some (e :: l) ->
     App.lookup (App.present (App.clearHistory k t)) k = Some [] /\
     (forall k', k' <> k ->
        App.lookup (App.present (App.clearHistory k t)) k' = App.lookup (App.present t) k') /\
     App.present (App.undoHistoryAction (App.clearHistory k t)) = App.present t) /\
  (App.moduleHistory (App.present t) k = [] -> App.clearHistory k t = t).
Proof.
  split.
  - intros e l Hl. unfold App.clearHistory.
    assert (Hu : (fun prevHistory : App.HistoryState =>
                    match App.lookup prevHistory k with
                    | Some (_ :: _) => App.setModule prevHistory k []
                    | _ => prevHistory
                    end) (App.present t) = App.setModule (App.present t) k [])
      by (cbv beta; now rewrite Hl).
    assert (Hch : App.setModule (App.present t) k [] <> App.present t).
    { intro Heq. pose proof (lookup_setModule_same (App.present t) k []) as H.
      rewrite Heq, Hl in H. discriminate. }
    split; [rewrite present_setHistoryWithUndo, Hu; apply lookup_setModule_same|].
    split.
    { intros k' Hne. rewrite present_setHistoryWithUndo, Hu.
      now apply lookup_setModule_other. }
    rewrite setHistoryWithUndo_changed by (rewrite Hu; exact Hch).
    destruct (lastTwenty_snoc (App.past t) (App.present t)) as [p' Hp']. rewrite Hp'.
    rewrite undo_after_snoc. reflexivity.
  - intro Hmh. unfold App.clearHistory. apply setHistoryWithUndo_unchanged.
    unfold App.moduleHistory in Hmh.
    destruct (App.lookup (App.present t) k) as [[|e l]|]; [reflexivity | discriminate | reflexivity].
Qed.

Lemma delete_on_missing_module_records_step_witness :
  (App.lookup (App.present (App.deleteHistoryEntry App.BEAM_LOAD "id-9" (App.start [])))
     App.BEAM_LOAD = Some [] /\
   App.canUndoHistory (App.deleteHistoryEntry App.BEAM_LOAD "id-9" (App.start [])) = true /\
   App.clearHistory App.BEAM_LOAD (App.start []) = App.start []) /\
  App.deleteHistoryEntry App.BEAM_LOAD "id-9"
    (App.addHistoryEntry App.BEAM_LOAD App.sampleEntry "id-1" "now" (App.start []))
  = App.addHistoryEntry App.BEAM_LOAD App.sampleEntry "id-1" "now" (App.start []).
Proof.
  split.
  - apply (proj1 (delete_on_missing_module_records_step App.BEAM_LOAD "id-9" (App.start []))).
    reflexivity.
  - eapply (proj2 (delete_on_missing_module_records_step App.BEAM_LOAD "id-9"
                     (App.addHistoryEntry App.BEAM_LOAD App.sampleEntry "id-1" "now"
                        (App.start [])))).
    + reflexivity.
    + intros e [<-|[]]. discriminate.
Defined.

Lemma clear_history_empties_module_witness :
  App.lookup
    (App.present
       (App.clearHistory App.BEAM_LOAD
          (App.addHistoryEntry App.BEAM_LOAD App.sampleEntry "id-1" "now" (App.start []))))
    App.BEAM_LOAD = Some [] /\
  App.present
    (App.undoHistoryAction
       (App.clearHistory App.BEAM_LOAD
          (App.addHistoryEntry App.BEAM_LOAD App.sampleEntry "id-1" "now" (App.start []))))
  = App.present (App.addHistoryEntry App.BEAM_LOAD App.sampleEntry "id-1" "now" (App.start [])) /\
  App.clearHistory App.REBAR (App.start []) = App.start [].
Proof.
  destruct (clear_history_empties_module App.BEAM_LOAD
              (App.addHistoryEntry App.BEAM_LOAD App.sampleEntry "id-1" "now" (App.start [])))
    as [Hfull _].
  destruct (Hfull _ _ eq_refl) as (H1 & _ & H2).
  split; [exact H1|]. split; [exact H2|].
  apply (proj2 (clear_history_empties_module App.REBAR (App.start []))). reflexivity.
Defined.

(** ** Deflection sign *)

Lemma quotient_times_nonneg (n d p : Q) : 0 <= n -> 0 < d -> 0 <= p -> 0 <= n / d * p.
Proof.
  intros Hn Hd Hp. apply Qmult_le_0_compat; [|exact Hp].
  apply Qle_shift_div_l; [exact Hd|]. lra.
Qed.

Lemma square_le (u v : Q) : 0 <= u -> u <= v -> u * u <= v * v.
Proof.
  intros Hu Huv. apply Qle_trans with (u * v).
  - apply mult_nonneg_le; assumption.
  - apply Qmult_le_compat_r; lra.
Qed.

Lemma ss_point_left_factor (l a t : Q) :
  0 <= t -> t <= a -> a <= l -> 0 <= l * l - (l - a) * (l - a) - t * t.
Proof.
  intros Ht Hta Hal.
  pose proof (square_le t a Ht Hta) as Hsq.
  assert (Hp : 0 <= a * (l - a)) by (apply Qmult_le_0_compat; lra).
  assert (E : l * l - (l - a) * (l - a) - t * t == 2 * (a * (l - a)) + (a * a - t * t)) by ring.
  rewrite E. lra.
Qed.

Lemma ss_point_right_factor (l a t : Q) :
  0 <= a -> a <= t -> t <= l -> 0 <= l * l - a * a - (l - t) * (l - t).
Proof.
  intros Ha Hat Htl.
  assert (Hy : 0 <= l - t) by lra. assert (Hyb : l - t <= l - a) by lra.
  pose proof (square_le (l - t) (l - a) Hy Hyb) as Hsq.
  assert (Hp : 0 <= a * (l - a)) by (apply Qmult_le_0_compat; lra).
  assert (E : l * l - a * a - (l - t) * (l - t)
              == 2 * (a * (l - a)) + ((l - a) * (l - a) - (l - t) * (l - t))) by ring.
  rewrite E. lra.
Qed.

Lemma ss_udl_factor (l t : Q) :
  0 <= t -> t <= l -> 0 <= l * l * l - 2 * l * t * t + t * t * t.
Proof.
  intros Ht Htl.
  assert (E : l * l * l - 2 * l * t * t + t * t * t == (l - t) * (l * l + t * (l - t))) by ring.
  rewrite E. apply Qmult_le_0_compat; [lra|].
  assert (H1 : 0 <= l * l) by (apply Qmult_le_0_compat; lra).
  assert (H2 : 0 <= t * (l - t)) by (apply Qmult_le_0_compat; lra).
  lra.
Qed.

Lemma cantilever_udl_factor (l t : Q) : 0 <= t * t + 6 * l * l - 4 * l * t.
Proof.
  assert (E : t * t + 6 * l * l - 4 * l * t == (t - 2 * l) * (t - 2 * l) + 2 * (l * l)) by ring.
  rewrite E.
  assert (H1 : 0 <= (t - 2 * l) * (t - 2 * l)) by (generalize (t - 2 * l); intro u; nra).
  assert (H2 : 0 <= l * l) by nra.
  lra.
Qed.

Lemma stiffness_positive (inputs : Inputs) (I_m4 : Q) :
  0 < modulusOfElasticity inputs -> 0 < I_m4 -> 0 < E inputs * I_m4.
Proof.
  intros HE HI. unfold E. apply Qmult_lt_0_compat; [lra | exact HI].
Qed.

Lemma deflection_nonneg_every_position (inputs : Inputs) (lc : LoadCase) (I_m4 t : Q) :
  basicGuard inputs = false ->
  solveLoadCase inputs = Some lc ->
  0 < I_m4 ->
  0 <= t -> t <= beamLength inputs ->
  0 <= deflection_m (evalAt inputs lc I_m4 t).
Proof.
  intros Hg Hlc HI Ht Htl.
  destruct (proj1 (basicGuard_false inputs) Hg) as (HL & HP & HE).
  assert (HPn : 0 < load inputs * 1000) by lra.
  pose proof (stiffness_positive inputs I_m4 HE HI) as HEI.
  assert (HD6 : 0 < 6 * E inputs * I_m4).
  { assert (Eq : 6 * E inputs * I_m4 == 6 * (E inputs * I_m4)) by ring. rewrite Eq. lra. }
  assert (HD24 : 0 < 24 * E inputs * I_m4).
  { assert (Eq : 24 * E inputs * I_m4 == 24 * (E inputs * I_m4)) by ring. rewrite Eq. lra. }
  assert (HD6L : 0 < 6 * E inputs * I_m4 * beamLength inputs)
    by (apply Qmult_lt_0_compat; assumption).
  unfold solveLoadCase in Hlc. unfold evalAt.
  destruct (beamType inputs), (loadType inputs).
  - destruct (positionGuard inputs) eqn:Hpos; [discriminate|].
    apply positionGuard_false in Hpos. destruct Hpos as [Ha Hal].
    cbn [deflection_m]. unfold P_N, b_len, L_m, a_m.
    destruct (JS.leb t (loadPosition inputs)) eqn:Hc.
    + apply leb_true in Hc. apply quotient_times_nonneg; [|exact HD6L|].
      * apply Qmult_le_0_compat; [|exact Ht]. apply Qmult_le_0_compat; lra.
      * now apply ss_point_left_factor.
    + apply leb_false in Hc. apply quotient_times_nonneg; [|exact HD6L|].
      * apply Qmult_le_0_compat; [|lra]. apply Qmult_le_0_compat; lra.
      * apply ss_point_right_factor; lra.
  - cbn [deflection_m]. unfold w_Nm, L_m.
    apply quotient_times_nonneg; [|exact HD24|].
    + apply Qmult_le_0_compat; lra.
    + now apply ss_udl_factor.
  - destruct (positionGuard inputs) eqn:Hpos; [discriminate|].
    apply positionGuard_false in Hpos. destruct Hpos as [Ha Hal].
    cbn [deflection_m]. unfold P_N, a_m.
    destruct (JS.leb t (loadPosition inputs)) eqn:Hc.
    + apply leb_true in Hc. apply quotient_times_nonneg; [|exact HD6|lra].
      apply Qmult_le_0_compat; [|exact Ht]. apply Qmult_le_0_compat; lra.
    + apply leb_false in Hc. apply quotient_times_nonneg; [|exact HD6|lra].
      apply Qmult_le_0_compat; [|exact Ha]. apply Qmult_le_0_compat; lra.
  - cbn [deflection_m]. unfold w_Nm, L_m.
    apply quotient_times_nonneg; [|exact HD24|].
    + apply Qmult_le_0_compat; [|exact Ht]. apply Qmult_le_0_compat; lra.
    + apply cantilever_udl_factor.
Qed.

(** ** Proportionality to the load *)

Lemma max_scale (k u v : Q) : 0 <= k -> Qmax (k * u) (k * v) == k * Qmax u v.
Proof.
  intro Hk. destruct (Qlt_le_dec u v) as [Huv|Hvu].
  - rewrite (Q.max_r u v) by lra. apply Q.max_r. apply mult_nonneg_le; lra.
  - rewrite (Q.max_l u v) by lra. apply Q.max_l. now apply mult_nonneg_le.
Qed.

Lemma abs_scale (k u : Q) : 0 <= k -> Qabs (k * u) == k * Qabs u.
Proof. intro Hk. rewrite Qabs_Qmult, (Qabs_pos k Hk). reflexivity. Qed.

Lemma resolveSection_withLoad (p : Q) (inputs : Inputs) :
  resolveSection (withLoad p inputs) = resolveSection inputs.
Proof. reflexivity. Qed.

Lemma some_eq {A : Type} (a b : A) : Some a = Some b -> a = b.
Proof. congruence. Qed.

(** X23: the closed-form outputs are proportional to the load: multiplying
    the load by k > 0 multiplies both reactions, maxMoment, maxShear and
    maxStress by k and leaves the second moment of area as it is. *)
Theorem results_proportional_to_load (inputs : Inputs) (k : Q) :
  accepted inputs = true ->
  0 < k ->
  exists r r',
    runCalculate inputs = Computed r /\
    runCalculate (withLoad (k * load inputs) inputs) = Computed r' /\
    momentOfInertia r' = momentOfInertia r /\
    r1 (reactions r') == k * r1 (reactions r) /\
    r2 (reactions r') == k * r2 (reactions r) /\
    maxMoment r' == k * maxMoment r /\
    maxShear r' == k * maxShear r /\
    maxStress r' == k * maxStress r.
Proof.
  intros Hacc Hk.
  destruct (accepted_inv inputs Hacc) as (I_m4 & c_m & lc & Hg & Hsec & Hlc & Hrun).
  destruct (proj1 (basicGuard_false inputs) Hg) as (HL & HP & HE).
  assert (Hk0 : 0 <= k) by lra.
  assert (HL0 : ~ beamLength inputs == 0) by lra.
  set (inputs' := withLoad (k * load inputs) inputs).
  assert (Hg' : basicGuard inputs' = false).
  { apply basicGuard_false. cbn [inputs' withLoad beamLength load modulusOfElasticity].
    repeat split; try assumption. now apply Qmult_lt_0_compat. }
  assert (Hsec' : resolveSection inputs' = Some (I_m4, c_m))
    by (unfold inputs'; now rewrite resolveSection_withLoad).
  assert (Hrun' : forall lc', solveLoadCase inputs' = Some lc' ->
            runCalculate inputs' = Computed (aggregate inputs' lc' I_m4 c_m)).
  { intros lc' Hlc'. unfold runCalculate. now rewrite Hg', Hsec', Hlc'. }
  assert (Hpos' : positionGuard inputs' = positionGuard inputs) by reflexivity.
  exists (aggregate inputs lc I_m4 c_m).
  unfold solveLoadCase in Hlc.
  assert (Hshape : solveLoadCase inputs'
                   = match beamType inputs, loadType inputs with
                     | simply_supported, point_load =>
                         if positionGuard inputs then None
                         else Some {| maxMoment_Nm := P_N inputs' * a_m inputs * b_len inputs
                                                      / L_m inputs;
                                      maxShear_N :=
                                        Qmax (Qabs (P_N inputs' * b_len inputs / L_m inputs))
                                             (Qabs (P_N inputs' * a_m inputs / L_m inputs));
                                      reactions_N :=
                                        {| r1 := P_N inputs' * b_len inputs / L_m inputs;
                                           r2 := P_N inputs' * a_m inputs / L_m inputs |} |}
                     | simply_supported, udl =>
                         Some {| maxMoment_Nm := w_Nm inputs' * L_m inputs * L_m inputs / 8;
                                 maxShear_N := w_Nm inputs' * L_m inputs / 2;
                                 reactions_N := {| r1 := w_Nm inputs' * L_m inputs / 2;
                                                   r2 := w_Nm inputs' * L_m inputs / 2 |} |}
                     | cantilever, point_load =>
                         if positionGuard inputs then None
                         else Some {| maxMoment_Nm := - P_N inputs' * a_m inputs;
                                      maxShear_N := P_N inputs';
                                      reactions_N := {| r1 := P_N inputs';
                                                        r2 := - P_N inputs' * a_m inputs |} |}
                     | cantilever, udl =>
                         Some {| maxMoment_Nm := - (w_Nm inputs' * L_m inputs * L_m inputs) / 2;
                                 maxShear_N := w_Nm inputs' * L_m inputs;
                                 reactions_N :=
                                   {| r1 := w_Nm inputs' * L_m inputs;
                                      r2 := - (w_Nm inputs' * L_m inputs * L_m inputs) / 2 |} |}
                     end) by reflexivity.
  assert (HPN : P_N inputs' == k * P_N inputs)
    by (unfold P_N; cbn [inputs' withLoad load]; ring).
  assert (HwN : w_Nm inputs' == k * w_Nm inputs)
    by (unfold w_Nm; cbn [inputs' withLoad load]; ring).
  assert (Hstress : forall m m' : Q, m' == k * m ->
            Qabs m' * c_m / I_m4 / 1000000 == k * (Qabs m * c_m / I_m4 / 1000000)).
  { intros m m' Hm. rewrite Hm, abs_scale by exact Hk0. unfold Qdiv. ring. }
  destruct (beamType inputs), (loadType inputs).
  - destruct (positionGuard inputs); [discriminate|]. apply some_eq in Hlc. subst lc.
    eexists. split; [exact Hrun|]. split; [exact (Hrun' _ Hshape)|].
    cbn [aggregate momentOfInertia reactions r1 r2 maxMoment maxShear maxStress
         maxMoment_Nm maxShear_N reactions_N].
    unfold L_m in *.
    assert (E1 : P_N inputs' * b_len inputs / beamLength inputs
                 == k * (P_N inputs * b_len inputs / beamLength inputs))
      by (rewrite HPN; field; exact HL0).
    assert (E2 : P_N inputs' * a_m inputs / beamLength inputs
                 == k * (P_N inputs * a_m inputs / beamLength inputs))
      by (rewrite HPN; field; exact HL0).
    assert (E3 : P_N inputs' * a_m inputs * b_len inputs / beamLength inputs
                 == k * (P_N inputs * a_m inputs * b_len inputs / beamLength inputs))
      by (rewrite HPN; field; exact HL0).
    split; [reflexivity|].
    split; [rewrite E1; unfold Qdiv; ring|]. split; [rewrite E2; unfold Qdiv; ring|].
    split; [rewrite E3; unfold Qdiv; ring|].
    split; [|now apply Hstress].
    rewrite E1, E2, !abs_scale, max_scale by exact Hk0. unfold Qdiv. ring.
  - apply some_eq in Hlc. subst lc.
    eexists. split; [exact Hrun|]. split; [exact (Hrun' _ Hshape)|].
    cbn [aggregate momentOfInertia reactions r1 r2 maxMoment maxShear maxStress
         maxMoment_Nm maxShear_N reactions_N].
    split; [reflexivity|].
    split; [rewrite HwN; field|]. split; [rewrite HwN; field|].
    split; [rewrite HwN; field|]. split; [rewrite HwN; field|].
    apply Hstress. rewrite HwN. field.
  - destruct (positionGuard inputs); [discriminate|]. apply some_eq in Hlc. subst lc.
    eexists. split; [exact Hrun|]. split; [exact (Hrun' _ Hshape)|].
    cbn [aggregate momentOfInertia reactions r1 r2 maxMoment maxShear maxStress
         maxMoment_Nm maxShear_N reactions_N].
    split; [reflexivity|].
    split; [rewrite HPN; field|]. split; [rewrite HPN; field|].
    split; [rewrite HPN; field|]. split; [rewrite HPN; field|].
    apply Hstress. rewrite HPN. ring.
  - apply some_eq in Hlc. subst lc.
    eexists. split; [exact Hrun|]. split; [exact (Hrun' _ Hshape)|].
    cbn [aggregate momentOfInertia reactions r1 r2 maxMoment maxShear maxStress
         maxMoment_Nm maxShear_N reactions_N].
    split; [reflexivity|].
    split; [rewrite HwN; field|]. split; [rewrite HwN; field|].
    split; [rewrite HwN; field|]. split; [rewrite HwN; field|].
    apply Hstress. rewrite HwN. field.
Qed.

Lemma results_proportional_to_load_witness :
  exists r r',
    runCalculate initialInputs = Computed r /\
    runCalculate (withLoad (3 * load initialInputs) initialInputs) = Computed r' /\
    momentOfInertia r' = momentOfInertia r /\
    r1 (reactions r') == 3 * r1 (reactions r) /\
    r2 (reactions r') == 3 * r2 (reactions r) /\
    maxMoment r' == 3 * maxMoment r /\
    maxShear r' == 3 * maxShear r /\
    maxStress r' == 3 * maxStress r.
Proof.
  apply (results_proportional_to_load initialInputs 3); reflexivity.
Defined.

(** ** Favourites *)

(** X24: toggling a favourite flips whether that module is listed and
    changes no other module's listing; a list without repetitions stays
    without repetitions, and toggling an unlisted module twice gives the
    list back. *)
Theorem toggle_favorite_flips_membership (k : App.CalculatorModuleKey)
  (favs : list App.CalculatorModuleKey) :
  (In k (App.handleToggleFavorite k favs) <-> ~ In k favs) /\
  (forall k', k' <> k -> (In k' (App.handleToggleFavorite k favs) <-> In k' favs)) /\
  (NoDup favs -> NoDup (App.handleToggleFavorite k favs)) /\
  (~ In k favs -> NoDup favs ->
   App.handleToggleFavorite k (App.handleToggleFavorite k favs) = favs).
Proof.
  unfold App.handleToggleFavorite.
  assert (Hex : existsb (fun fav => if App.key_eq_dec fav k then true else false) favs = true
                <-> In k favs).
  { rewrite existsb_exists. split.
    - intros (x & Hx & Hk). destruct (App.key_eq_dec x k); [now subst | discriminate].
    - intro H. exists k. split; [exact H|]. destruct (App.key_eq_dec k k); congruence. }
  assert (Hfilter : forall x,
            In x (filter (fun fav => if App.key_eq_dec fav k then false else true) favs)
            <-> In x favs /\ x <> k).
  { intro x. rewrite filter_In. destruct (App.key_eq_dec x k); split; intros [H1 H2];
      split; auto; congruence. }
  destruct (existsb (fun fav => if App.key_eq_dec fav k then true else false) favs) eqn:He.
  - assert (Hin : In k favs) by (now apply Hex).
    split; [rewrite Hfilter; split; [intros [_ H]; congruence | intro H; contradiction]|].
    split; [intros k' Hne; rewrite Hfilter; tauto|].
    split; [intro Hnd; now apply NoDup_filter|].
    intro Hn. contradiction.
  - assert (Hnin : ~ In k favs) by (intro H; apply Hex in H; congruence).
    split; [rewrite in_app_iff; cbn [In]; tauto|].
    split.
    { intros k' Hne. rewrite in_app_iff. cbn [In]. split; [|tauto].
      intros [H|[H|[]]]; [exact H | congruence]. }
    split.
    { intro Hnd. apply NoDup_app; [exact Hnd | repeat constructor; intros [] |].
      intros x Hx [Hk|[]]. subst x. contradiction. }
    intros _ Hnd.
    assert (He2 : existsb (fun fav => if App.key_eq_dec fav k then true else false)
                          (favs ++ [k]) = true).
    { rewrite existsb_app. cbn [existsb]. destruct (App.key_eq_dec k k); [|congruence].
      now rewrite orb_true_r. }
    rewrite He2, filter_app. cbn [filter]. destruct (App.key_eq_dec k k); [|congruence].
    rewrite app_nil_r. apply forallb_filter_id. apply forallb_forall.
    intros x Hx. destruct (App.key_eq_dec x k); [subst; contradiction | reflexivity].
Qed.

Lemma toggle_favorite_flips_membership_witness :
  NoDup (App.handleToggleFavorite App.REBAR [App.BEAM_LOAD; App.REBAR]) /\
  App.handleToggleFavorite App.EARTHWORK
    (App.handleToggleFavorite App.EARTHWORK [App.BEAM_LOAD; App.REBAR])
  = [App.BEAM_LOAD; App.REBAR].
Proof.
  assert (Hnd : NoDup [App.BEAM_LOAD; App.REBAR]).
  { repeat constructor; simpl; intuition discriminate. }
  split.
  - apply (proj1 (proj2 (proj2 (toggle_favorite_flips_membership App.REBAR
                                  [App.BEAM_LOAD; App.REBAR])))). exact Hnd.
  - apply (proj2 (proj2 (proj2 (toggle_favorite_flips_membership App.EARTHWORK
                                  [App.BEAM_LOAD; App.REBAR])))); [|exact Hnd].
    simpl. intuition discriminate.
Defined.

Lemma earthwork_result_iff_same_sign_witness :
  exists r, Earthwork.volumes negativeSite = Some r.
Proof.
  apply (proj2 (earthwork_result_iff_same_sign negativeSite)).
  right. split; reflexivity.
Defined.

(** ** Stored diagram values and the reported peaks *)

Lemma abs_toFixed2_bound (u B : Q) : Qabs u <= B -> Qabs (JS.toFixed2 u) < B + (1 # 100).
Proof.
  intro Hu. pose proof (toFixed2_near u) as Hn.
  assert (Htri : Qabs (JS.toFixed2 u) <= Qabs (JS.toFixed2 u - u) + Qabs u).
  { assert (E : forall f : Q, f == (f - u) + u) by (intro f; ring).
    rewrite (E (JS.toFixed2 u)) at 1. apply Qabs_triangle. }
  lra.
Qed.

(** X7: no diagram point shows more than the reported peaks: at each of the
    101 samples the stored |moment| is below |maxMoment| + 0.01 and the
    stored |shear| below maxShear + 0.01. *)
Theorem diagram_within_reported_peaks (inputs : Inputs) :
  accepted inputs = true ->
  exists r, runCalculate inputs = Computed r /\
    forall i, (i <= 100)%nat ->
      Qabs (moment (nth i (diagramData r) noPoint)) < Qabs (maxMoment r) + (1 # 100) /\
      Qabs (shear (nth i (diagramData r) noPoint)) < maxShear r + (1 # 100).
Proof.
  intro Hacc.
  destruct (accepted_inv inputs Hacc) as (I_m4 & c_m & lc & Hg & _ & Hlc & Hrun).
  destruct (proj1 (basicGuard_false inputs) Hg) as (HL & _ & _).
  exists (aggregate inputs lc I_m4 c_m). split; [exact Hrun|].
  intros i Hi. cbn [aggregate diagramData maxMoment maxShear].
  rewrite sampleDiagram_nth by exact Hi. cbn [moment shear diagramPoint].
  destruct (position_in_span inputs i HL Hi) as [Ht Htl].
  destruct (peaks_bound_every_position inputs lc I_m4 (position inputs i) Hg Hlc Ht Htl)
    as [Hm Hs].
  split; apply abs_toFixed2_bound.
  - rewrite !abs_div1000. apply Qmult_le_compat_r; [exact Hm | discriminate].
  - rewrite abs_div1000. apply Qmult_le_compat_r; [exact Hs | discriminate].
Qed.

Lemma diagram_within_reported_peaks_witness :
  exists r, runCalculate interiorCantilever = Computed r /\
    forall i, (i <= 100)%nat ->
      Qabs (moment (nth i (diagramData r) noPoint)) < Qabs (maxMoment r) + (1 # 100) /\
      Qabs (shear (nth i (diagramData r) noPoint)) < maxShear r + (1 # 100).
Proof.
  apply (diagram_within_reported_peaks interiorCantilever). reflexivity.
Defined.

(** X8: end conditions of the diagram.  A simply supported beam stores
    moment 0 at both supports and, for I > 0, deflection 0 at the left one.
    A cantilever stores moment 0 at its free end and, under a UDL or with
    the point load not beyond the last-but-one sample, shear 0 there; its
    fixed end shows maxMoment to less than 0.01 and, for I > 0, deflection
    0. *)
Theorem diagram_end_conditions (inputs : Inputs) :
  accepted inputs = true ->
  exists r, runCalculate inputs = Computed r /\
    match beamType inputs with
    | simply_supported =>
        moment (nth 0 (diagramData r) noPoint) == 0 /\
        moment (nth 100 (diagramData r) noPoint) == 0 /\
        (0 < momentOfInertia r -> deflection (nth 0 (diagramData r) noPoint) == 0)
    | cantilever =>
        moment (nth 100 (diagramData r) noPoint) == 0 /\
        (loadType inputs = udl \/ loadPosition inputs <= position inputs 99 ->
         shear (nth 100 (diagramData r) noPoint) == 0) /\
        Qabs (moment (nth 0 (diagramData r) noPoint) - maxMoment r) < 1 # 100 /\
        (0 < momentOfInertia r -> deflection (nth 0 (diagramData r) noPoint) == 0)
    end.
Proof.
  intro Hacc.
  destruct (accepted_inv inputs Hacc) as (I_m4 & c_m & lc & Hg & _ & Hlc & Hrun).
  destruct (proj1 (basicGuard_false inputs) Hg) as (HL & HP & HE).
  exists (aggregate inputs lc I_m4 c_m). split; [exact Hrun|]. clear Hrun Hacc.
  cbn [aggregate diagramData momentOfInertia maxMoment].
  rewrite !sampleDiagram_nth by lia. cbn [moment shear deflection diagramPoint].
  pose proof (position_0 inputs) as H0. pose proof (position_100 inputs) as H100.
  set (t0 := position inputs 0) in *. set (t1 := position inputs 100) in *.
  assert (HL0 : ~ beamLength inputs == 0) by lra.
  unfold solveLoadCase in Hlc. unfold evalAt.
  destruct (beamType inputs), (loadType inputs).
  - (* simply supported, point load *)
    destruct (positionGuard inputs) eqn:Hpos; [discriminate|].
    apply positionGuard_false in Hpos. destruct Hpos as [Ha Hal].
    injection Hlc as <-.
    cbn [moment_Nm shear_N deflection_m reactions_N r1 r2].
    unfold P_N, b_len, L_m, a_m.
    assert (Hc0 : JS.leb t0 (loadPosition inputs) = true) by (apply leb_true; lra).
    rewrite Hc0.
    split; [apply toFixed2_zero; rewrite H0; field; exact HL0|].
    split.
    { apply toFixed2_zero.
      destruct (JS.leb t1 (loadPosition inputs)) eqn:Hc1.
      - apply leb_true in Hc1.
        assert (HaL : loadPosition inputs == beamLength inputs) by lra.
        rewrite H100, HaL. field. exact HL0.
      - rewrite H100. field. exact HL0. }
    intro HI. assert (HI0 : ~ I_m4 == 0) by lra.
    pose proof (E_nonzero inputs HE) as HE0.
    rewrite H0. field_nz.
  - (* simply supported, UDL *)
    injection Hlc as <-.
    cbn [moment_Nm shear_N deflection_m reactions_N r1 r2].
    unfold w_Nm, L_m.
    split; [apply toFixed2_zero; rewrite H0; field|].
    split; [apply toFixed2_zero; rewrite H100; field|].
    intro HI. assert (HI0 : ~ I_m4 == 0) by lra.
    pose proof (E_nonzero inputs HE) as HE0.
    rewrite H0. field_nz.
  - (* cantilever, point load *)
    destruct (positionGuard inputs) eqn:Hpos; [discriminate|].
    apply positionGuard_false in Hpos. destruct Hpos as [Ha Hal].
    injection Hlc as <-.
    cbn [moment_Nm shear_N deflection_m reactions_N r1 r2 maxMoment_Nm].
    unfold P_N, a_m.
    assert (Hc1 : JS.ltb t1 (loadPosition inputs) = false) by (apply ltb_false; lra).
    assert (Hc0 : JS.leb t0 (loadPosition inputs) = true) by (apply leb_true; lra).
    rewrite Hc1, Hc0.
    split; [apply toFixed2_zero; reflexivity|].
    split; [intros _; apply toFixed2_zero; reflexivity|].
    split.
    { apply toFixed2_within.
      destruct (JS.ltb t0 (loadPosition inputs)) eqn:Hc.
      - rewrite H0. field.
      - apply ltb_false in Hc.
        assert (Ha0 : loadPosition inputs == 0) by lra.
        rewrite Ha0. field. }
    intro HI. assert (HI0 : ~ I_m4 == 0) by lra.
    pose proof (E_nonzero inputs HE) as HE0.
    rewrite H0. field_nz.
  - (* cantilever, UDL *)
    injection Hlc as <-.
    cbn [moment_Nm shear_N deflection_m reactions_N r1 r2 maxMoment_Nm].
    unfold w_Nm, L_m.
    split; [apply toFixed2_zero; rewrite H100; field|].
    split; [intros _; apply toFixed2_zero; rewrite H100; field|].
    split; [apply toFixed2_within; rewrite H0; field|].
    intro HI. assert (HI0 : ~ I_m4 == 0) by lra.
    pose proof (E_nonzero inputs HE) as HE0.
    rewrite H0. field_nz.
Qed.

Lemma diagram_end_conditions_witness :
  (exists r, runCalculate initialInputs = Computed r /\
     moment (nth 0 (diagramData r) noPoint) == 0 /\
     moment (nth 100 (diagramData r) noPoint) == 0 /\
     deflection (nth 0 (diagramData r) noPoint) == 0) /\
  (exists r, runCalculate interiorCantilever = Computed r /\
     moment (nth 100 (diagramData r) noPoint) == 0 /\
     shear (nth 100 (diagramData r) noPoint) == 0 /\
     Qabs (moment (nth 0 (diagramData r) noPoint) - maxMoment r) < 1 # 100 /\
     deflection (nth 0 (diagramData r) noPoint) == 0).
Proof.
  split.
  - destruct (diagram_end_conditions initialInputs eq_refl) as (r & Hrun & H).
    cbn [beamType initialInputs] in H. destruct H as (H1 & H2 & H3).
    exists r. split; [exact Hrun|]. split; [exact H1|]. split; [exact H2|].
    apply H3. unfold initialInputs in Hrun. injection Hrun as <-. reflexivity.
  - destruct (diagram_end_conditions interiorCantilever eq_refl) as (r & Hrun & H).
    cbn [beamType interiorCantilever mkInputs] in H. destruct H as (H1 & H2 & H3 & H4).
    exists r. split; [exact Hrun|]. split; [exact H1|].
    split; [apply H2; right; unfold Qle; simpl; lia|].
    split; [exact H3|].
    apply H4. unfold interiorCantilever, mkInputs in Hrun. injection Hrun as <-. reflexivity.
Defined.

Lemma computed_eq (r r' : BeamResult) : Computed r = Computed r' -> r = r'.
Proof. congruence. Qed.

Lemma maxDeflection_nonneg (inputs : Inputs) (lc : LoadCase) (I_m4 c_m : Q) :
  0 <= maxDeflection (aggregate inputs lc I_m4 c_m).
Proof.
  cbn [aggregate maxDeflection].
  pose proof (sampleDiagram_nonempty inputs lc I_m4) as Hne.
  destruct (sampleDiagram inputs lc I_m4) as [|d0 rest]; [congruence|].
  cbn [map JS.mathMax].
  eapply Qle_trans; [apply Qabs_nonneg|].
  apply (proj1 (fold_max_upper _ _)).
Qed.

(** X9: under a UDL the diagram of a simply supported beam is symmetric
    about mid-span: samples i and 100 - i store moments less than 0.02
    apart and shears whose sum is less than 0.02 in size, and, when I is
    not zero, deflections that agree within 1e-9 of maxDeflection. *)
Theorem udl_diagram_symmetric (inputs : Inputs) :
  accepted inputs = true ->
  beamType inputs = simply_supported ->
  loadType inputs = udl ->
  exists r, runCalculate inputs = Computed r /\
    forall i, (i <= 100)%nat ->
      Qabs (moment (nth (100 - i) (diagramData r) noPoint)
            - moment (nth i (diagramData r) noPoint)) < 2 # 100 /\
      Qabs (shear (nth (100 - i) (diagramData r) noPoint)
            + shear (nth i (diagramData r) noPoint)) < 2 # 100 /\
      (~ momentOfInertia r == 0 ->
       Qabs (deflection (nth (100 - i) (diagramData r) noPoint)
             - deflection (nth i (diagramData r) noPoint))
       <= (1 # 1000000000) * maxDeflection r).
Proof.
  intros Hacc Hbt Hlt.
  destruct (udl_mirror_exact inputs Hacc Hbt Hlt) as (r & Hrun & Hsym).
  exists r. split; [exact Hrun|].
  destruct (accepted_inv inputs Hacc) as (I_m4 & c_m & lc & _ & _ & _ & Hrun').
  rewrite Hrun in Hrun'. apply computed_eq in Hrun'.
  pose proof (maxDeflection_nonneg inputs lc I_m4 c_m) as Hmax. rewrite <- Hrun' in Hmax.
  intros i Hi. destruct (Hsym i Hi) as (Hm & Hs & Hd).
  split; [|split].
  - rewrite Hm. setoid_replace (moment (nth i (diagramData r) noPoint)
                                - moment (nth i (diagramData r) noPoint)) with 0 by ring.
    reflexivity.
  - rewrite Hs. setoid_replace (- shear (nth i (diagramData r) noPoint)
                                + shear (nth i (diagramData r) noPoint)) with 0 by ring.
    reflexivity.
  - intros _. rewrite Hd.
    setoid_replace (deflection (nth i (diagramData r) noPoint)
                    - deflection (nth i (diagramData r) noPoint)) with 0 by ring.
    change (Qabs 0) with 0. lra.
Qed.

Lemma udl_diagram_symmetric_witness :
  exists r, runCalculate scenarioB = Computed r /\
    forall i, (i <= 100)%nat ->
      Qabs (moment (nth (100 - i) (diagramData r) noPoint)
            - moment (nth i (diagramData r) noPoint)) < 2 # 100 /\
      Qabs (shear (nth (100 - i) (diagramData r) noPoint)
            + shear (nth i (diagramData r) noPoint)) < 2 # 100 /\
      (~ momentOfInertia r == 0 ->
       Qabs (deflection (nth (100 - i) (diagramData r) noPoint)
             - deflection (nth i (diagramData r) noPoint))
       <= (1 # 1000000000) * maxDeflection r).
Proof.
  apply (udl_diagram_symmetric scenarioB); reflexivity.
Defined.

(** X10: when I is not zero, maxDeflection bounds the |deflection| of every
    diagram point, and "Select Max Deflection" picks a diagram point that
    attains it. *)
Theorem max_deflection_is_attained (inputs : Inputs) :
  accepted inputs = true ->
  exists r, runCalculate inputs = Computed r /\
    (~ momentOfInertia r == 0 ->
     (forall q, In q (diagramData r) -> Qabs (deflection q) <= maxDeflection r) /\
     exists p, selectMaxDeflection r = Some p /\
       In p (diagramData r) /\
       Qabs (deflection p) == maxDeflection r).
Proof.
  intro Hacc.
  destruct (accepted_inv inputs Hacc) as (I_m4 & c_m & lc & _ & _ & _ & Hrun).
  pose proof (sampleDiagram_nonempty inputs lc I_m4) as Hne.
  destruct (reduceMax_spec (fun p => Qabs (deflection p)) _ Hne) as (p & Hsel & Hin & Hall).
  exists (aggregate inputs lc I_m4 c_m). split; [exact Hrun|]. intros _.
  unfold selectMaxDeflection. cbn [aggregate diagramData maxDeflection].
  set (d := sampleDiagram inputs lc I_m4) in *.
  assert (Hne' : map (fun q => Qabs (deflection q)) d <> []).
  { destruct d; [congruence | discriminate]. }
  destruct (mathMax_spec _ Hne') as [Hub (y & Hy & Hatt)].
  assert (Hbound : forall q, In q d -> Qabs (deflection q)
                                       <= JS.mathMax (map (fun q => Qabs (deflection q)) d)).
  { intros q Hq. apply Hub. apply in_map_iff. exists q. split; [reflexivity | exact Hq]. }
  split; [exact Hbound|]. exists p. split; [exact Hsel|]. split; [exact Hin|].
  apply Qle_antisym; [now apply Hbound|].
  rewrite Hatt. apply in_map_iff in Hy. destruct Hy as (q & <- & Hq).
  now apply Hall.
Qed.

Lemma max_deflection_is_attained_witness :
  exists r, runCalculate initialInputs = Computed r /\
    (forall q, In q (diagramData r) -> Qabs (deflection q) <= maxDeflection r) /\
    exists p, selectMaxDeflection r = Some p /\
      In p (diagramData r) /\
      Qabs (deflection p) == maxDeflection r.
Proof.
  destruct (max_deflection_is_attained initialInputs eq_refl) as (r & Hrun & H).
  exists r. split; [exact Hrun|]. apply H.
  unfold initialInputs in Hrun. injection Hrun as <-. discriminate.
Defined.

Lemma abs_toFixed2_lower (u : Q) : Qabs u - (1 # 100) < Qabs (JS.toFixed2 u).
Proof.
  pose proof (toFixed2_near u) as Hn.
  assert (Htri : Qabs u <= Qabs (u - JS.toFixed2 u) + Qabs (JS.toFixed2 u)).
  { assert (E : forall f : Q, u == (u - f) + f) by (intro f; ring).
    rewrite (E (JS.toFixed2 u)) at 1. apply Qabs_triangle. }
  assert (Hsym : Qabs (u - JS.toFixed2 u) == Qabs (JS.toFixed2 u - u)).
  { assert (E : forall f : Q, u - f == - (f - u)) by (intro f; ring).
    rewrite (E (JS.toFixed2 u)). apply Qabs_opp. }
  rewrite Hsym in Htri. lra.
Qed.

(** X11: "Select Max Moment" picks a diagram point whose |moment| no other
    diagram point exceeds and which is below |maxMoment| + 0.01; for a
    cantilever, and for any beam under a UDL, the picked point is also
    above |maxMoment| - 0.01: it shows the reported peak to two decimals. *)
Theorem select_max_moment_shows_peak (inputs : Inputs) :
  accepted inputs = true ->
  exists r p, runCalculate inputs = Computed r /\
    selectMaxMoment r = Some p /\
    In p (diagramData r) /\
    (forall q, In q (diagramData r) -> Qabs (moment q) <= Qabs (moment p)) /\
    Qabs (moment p) < Qabs (maxMoment r) + (1 # 100) /\
    (beamType inputs = cantilever \/ loadType inputs = udl ->
     Qabs (maxMoment r) - (1 # 100) < Qabs (moment p)).
Proof.
  intro Hacc.
  destruct (accepted_inv inputs Hacc) as (I_m4 & c_m & lc & Hg & _ & Hlc & Hrun).
  destruct (proj1 (basicGuard_false inputs) Hg) as (HL & _ & _).
  pose proof (sampleDiagram_nonempty inputs lc I_m4) as Hne.
  destruct (reduceMax_spec (fun p => Qabs (moment p)) _ Hne) as (p & Hsel & Hin & Hall).
  exists (aggregate inputs lc I_m4 c_m), p. split; [exact Hrun|].
  split; [exact Hsel|]. split; [exact Hin|]. split; [exact Hall|].
  cbn [aggregate diagramData maxMoment] in *.
  split.
  - unfold sampleDiagram in Hin. apply in_map_iff in Hin.
    destruct Hin as (i & <- & Hi). apply in_seq in Hi.
    assert (Hi' : (i <= 100)%nat) by lia.
    destruct (position_in_span inputs i HL Hi') as [Ht Htl].
    destruct (peaks_bound_every_position inputs lc I_m4 (position inputs i) Hg Hlc Ht Htl)
      as [Hm _].
    cbn [moment diagramPoint]. apply abs_toFixed2_bound.
    rewrite !abs_div1000. apply Qmult_le_compat_r; [exact Hm | discriminate].
  - intro Hcase.
    destruct (peak_sample inputs lc I_m4 Hg Hlc Hcase) as (i & Hi & Hpk).
    assert (Hq : Qabs (moment (diagramPoint inputs lc I_m4 i)) <= Qabs (moment p)).
    { apply Hall. unfold sampleDiagram. apply in_map. apply in_seq. lia. }
    rewrite Hpk in Hq.
    pose proof (abs_toFixed2_lower (maxMoment_Nm lc / 1000)) as Hlow. lra.
Qed.

Lemma select_max_moment_shows_peak_witness :
  exists r p, runCalculate scenarioC = Computed r /\
    selectMaxMoment r = Some p /\
    In p (diagramData r) /\
    Qabs (moment p) < 250 + (1 # 100) /\
    250 - (1 # 100) < Qabs (moment p).
Proof.
  destruct (select_max_moment_shows_peak scenarioC eq_refl)
    as (r & p & Hrun & Hsel & Hin & _ & Hub & Hlb).
  exists r, p. split; [exact Hrun|]. split; [exact Hsel|]. split; [exact Hin|].
  assert (HM : Qabs (maxMoment r) == 250).
  { unfold scenarioC, mkInputs in Hrun. injection Hrun as <-. reflexivity. }
  rewrite HM in Hub. split; [exact Hub|].
  specialize (Hlb (or_introl eq_refl)). rewrite HM in Hlb. exact Hlb.
Defined.

Lemma nonneg_deflections_peak (d : list DiagramPoint) :
  d <> [] ->
  (forall q, In q d -> 0 <= deflection q) ->
  0 <= JS.mathMax (map (fun q => Qabs (deflection q)) d) /\
  (forall q, In q d -> deflection q <= JS.mathMax (map (fun q => Qabs (deflection q)) d)) /\
  exists p, In p d /\ deflection p == JS.mathMax (map (fun q => Qabs (deflection q)) d).
Proof.
  intros Hne Hin.
  assert (Hne' : map (fun q => Qabs (deflection q)) d <> []).
  { destruct d; [congruence | discriminate]. }
  destruct (mathMax_spec _ Hne') as [Hub (y & Hy & Hatt)].
  assert (Hle : forall q, In q d ->
                  deflection q <= JS.mathMax (map (fun q => Qabs (deflection q)) d)).
  { intros q Hq. eapply Qle_trans; [apply Qle_Qabs|].
    apply Hub. apply in_map_iff. exists q. split; [reflexivity | exact Hq]. }
  apply in_map_iff in Hy. destruct Hy as (q & Hq & Hqin).
  split; [|split].
  - eapply Qle_trans; [apply (Hin q Hqin) | apply (Hle q Hqin)].
  - exact Hle.
  - exists q. split; [exact Hqin|].
    rewrite Hatt, <- Hq. symmetry. apply Qabs_pos. now apply Hin.
Qed.

(** X22: with a positive second moment of area the beam does not deflect
    upward: no stored deflection lies below -1e-9 * maxDeflection or above
    maxDeflection, and maxDeflection is the deflection of a diagram point
    itself, not only its size. *)
Theorem deflection_never_negative (inputs : Inputs) :
  accepted inputs = true ->
  exists r, runCalculate inputs = Computed r /\
    (0 < momentOfInertia r ->
     (forall i, (i <= 100)%nat ->
        - ((1 # 1000000000) * maxDeflection r) <= deflection (nth i (diagramData r) noPoint) /\
        deflection (nth i (diagramData r) noPoint) <= maxDeflection r) /\
     exists p, In p (diagramData r) /\ deflection p == maxDeflection r).
Proof.
  intro Hacc.
  destruct (accepted_inv inputs Hacc) as (I_m4 & c_m & lc & Hg & _ & Hlc & Hrun).
  destruct (proj1 (basicGuard_false inputs) Hg) as (HL & _ & _).
  exists (aggregate inputs lc I_m4 c_m). split; [exact Hrun|].
  cbn [aggregate momentOfInertia diagramData maxDeflection]. intro HI.
  assert (Hpt : forall i, (i <= 100)%nat -> 0 <= deflection (diagramPoint inputs lc I_m4 i)).
  { intros i Hi. cbn [deflection diagramPoint].
    destruct (position_in_span inputs i HL Hi) as [Ht Htl].
    pose proof (deflection_nonneg_every_position inputs lc I_m4 _ Hg Hlc HI Ht Htl) as Hd.
    assert (Eq : deflection_m (evalAt inputs lc I_m4 (position inputs i)) * 1000
                 == 1000 * deflection_m (evalAt inputs lc I_m4 (position inputs i))) by ring.
    rewrite Eq. apply Qmult_le_0_compat; [discriminate | exact Hd]. }
  assert (Hin : forall q, In q (sampleDiagram inputs lc I_m4) -> 0 <= deflection q).
  { intros q Hq. unfold sampleDiagram in Hq. apply in_map_iff in Hq.
    destruct Hq as (i & <- & Hi). apply in_seq in Hi. apply Hpt. lia. }
  destruct (nonneg_deflections_peak _ (sampleDiagram_nonempty inputs lc I_m4) Hin)
    as (Hmax & Hle & Hatt).
  split; [|exact Hatt].
  intros i Hi.
  assert (Hmem : In (nth i (sampleDiagram inputs lc I_m4) noPoint)
                    (sampleDiagram inputs lc I_m4)).
  { apply nth_In. rewrite sampleDiagram_length. lia. }
  pose proof (Hin _ Hmem) as H0.
  split; [|now apply Hle].
  generalize dependent (JS.mathMax (map (fun q => Qabs (deflection q))
                                        (sampleDiagram inputs lc I_m4))).
  generalize dependent (deflection (nth i (sampleDiagram inputs lc I_m4) noPoint)).
  intros u Hu m Hm _ _. clear - Hu Hm. lra.
Qed.

Lemma deflection_never_negative_witness :
  exists r, runCalculate scenarioB = Computed r /\
    (forall i, (i <= 100)%nat ->
       - ((1 # 1000000000) * maxDeflection r) <= deflection (nth i (diagramData r) noPoint) /\
       deflection (nth i (diagramData r) noPoint) <= maxDeflection r) /\
    exists p, In p (diagramData r) /\ deflection p == maxDeflection r.
Proof.
  destruct (deflection_never_negative scenarioB eq_refl) as (r & Hrun & H).
  exists r. split; [exact Hrun|]. apply H.
  unfold scenarioB, mkInputs in Hrun. injection Hrun as <-. reflexivity.
Defined.
